(** * go-auth0, package management: the Client resource (client.go)

    A shallow embedding of the two pieces of logic in [management/client.go]:
    - the tolerant codec of [ClientJWTConfiguration]
      ([UnmarshalJSON] / [MarshalJSON]), which accepts the wire field
      [lifetime_in_seconds] as a JSON number or as a JSON string;
    - [ClientManager.UpdateCredential], which sends a stripped clone of the
      caller's credential and copies the server's answer back.

    Conventions.
    - JSON texts are modelled after lexing and parsing, as trees
      ([json.value]);
      the functions of [encoding/json] are modelled on those trees.  A text
      that is not valid JSON is rejected by [json.Unmarshal] before anything
      is stored and is not an input of the model.
    - Go's [int] is the 64-bit integer of the usual platforms, a [Z] within
      [int_min .. int_max].
    - A Go string is its bytes.  [json.Marshal] writes a string as it is
      when it is valid UTF-8 ([utf8.ValidString]); the properties that
      read an encoding back as the strings it was made from are stated
      for such strings.
    - A pointer field [*T] whose pointee is never shared is an [option T]
      ([None] is the nil pointer).  The [*time.Time] fields of [Credential]
      are addresses into an explicit store, because [UpdateCredential] shares
      one of them between the caller's value and the request payload. *)

From Stdlib Require Import ZArith Lia Ascii String Floats.SpecFloat.
From stdpp Require Import base option list strings gmap sorting.

Local Open Scope string_scope.
Local Open Scope Z_scope.

Set Warnings "-register-all".

(** ** Go's [int] *)

Definition int_min : Z := - 2 ^ 63.
Definition int_max : Z := 2 ^ 63 - 1.

(** ** Package strconv *)

Module strconv.

Inductive NumError := ErrSyntax | ErrRange.

Definition is_digit (c : ascii) : bool :=
  let n := Z.of_nat (nat_of_ascii c) in (48 <=? n) && (n <=? 57).

Definition digit_val (c : ascii) : Z := Z.of_nat (nat_of_ascii c) - 48.

Definition maxUint64 : Z := 2 ^ 64 - 1.

(** The digit loop of [ParseUint(s, 10, 64)]: a character that is not a
    decimal digit (the underscore included, which base 10 does not take)
    is a syntax error, a value beyond 64 bits a range error, each reported
    at the first character that shows it. *)
Fixpoint ParseUint_loop (s : string) (n : Z) : Z + NumError :=
  match s with
  | EmptyString => inl n
  | String c rest =>
      if is_digit c then
        if maxUint64 / 10 + 1 <=? n then inr ErrRange
        else
          let n1 := n * 10 + digit_val c in
          if maxUint64 <? n1 then inr ErrRange else ParseUint_loop rest n1
      else inr ErrSyntax
  end.

Definition ParseUint (s : string) : Z + NumError :=
  match s with
  | EmptyString => inr ErrSyntax
  | _ => ParseUint_loop s 0
  end.

(** [ParseInt(s, 10, 0)]: an optional sign, then [ParseUint]; the
    magnitude must fit in an [int]. *)
Definition ParseInt (s : string) : Z + NumError :=
  match s with
  | EmptyString => inr ErrSyntax
  | String c rest =>
      let neg := Ascii.eqb c "-" in
      let body := if Ascii.eqb c "+" || neg then rest else s in
      match ParseUint body with
      | inr ErrSyntax => inr ErrSyntax
      | inr ErrRange => inr ErrRange
      | inl un =>
          let cutoff := 2 ^ 63 in
          if negb neg && (cutoff <=? un) then inr ErrRange
          else if neg && (cutoff <? un) then inr ErrRange
          else inl (if neg then - un else un)
      end
  end.

(** [Atoi(s)] is [ParseInt(s, 10, 0)] (its fast path for short strings
    computes the same result). *)
Definition Atoi (s : string) : Z + NumError := ParseInt s.

(** The strings that are a base-10 integer: an optional sign and at
    least one digit, nothing else. *)
Definition base10 (s : string) : bool :=
  match s with
  | EmptyString => false
  | String c rest =>
      let body := if Ascii.eqb c "+" || Ascii.eqb c "-" then rest else s in
      match body with
      | EmptyString => false
      | _ => forallb is_digit (list_ascii_of_string body)
      end
  end.

(** The number that a string of decimal digits denotes, read after the
    digits of [n]. *)
Fixpoint digits_value (s : string) (n : Z) : Z :=
  match s with
  | EmptyString => n
  | String c rest => digits_value rest (n * 10 + digit_val c)
  end.

(** The integer that a base-10 string denotes. *)
Definition base10_value (s : string) : Z :=
  match s with
  | EmptyString => 0
  | String c rest =>
      if Ascii.eqb c "-" then - digits_value rest 0
      else if Ascii.eqb c "+" then digits_value rest 0
      else digits_value s 0
  end.

(** *** float64

    A finite binary64 value [(-1)^neg * mant * 2^exp].  Decoding JSON never
    produces an infinity or a NaN: a literal too large for a float64 is an
    error of [ParseFloat]. *)
Inductive float64 := Float64 (neg : bool) (mant : Z) (exp : Z).

(** Quotient of [num / den] rounded to the nearest integer, ties to even. *)
Definition round_half_even (num den : Z) : Z :=
  let q := num / den in
  let r := num mod den in
  if 2 * r <? den then q
  else if den <? 2 * r then q + 1
  else if Z.even q then q else q + 1.

(** [2^k <= a / b], for [a >= 0] and [b > 0]. *)
Definition ge_pow2 (a b k : Z) : bool :=
  if 0 <=? k then b * 2 ^ k <=? a else b <=? a * 2 ^ (- k).

(** The binary64 value nearest to the positive rational [a / b]
    (IEEE 754 round-to-nearest-even, 53 bits of precision, least exponent
    [-1074]); [None] when the rounded value exceeds the largest finite
    float64. *)
Definition round_ratio (a b : Z) : option (Z * Z) :=
  if a =? 0 then Some (0, 0)
  else
    let k0 := Z.log2 a - Z.log2 b in
    let k := if ge_pow2 a b k0 then k0 else k0 - 1 in
    let ex := Z.max (k - 52) (- 1074) in
    let mant :=
      if 0 <=? ex then round_half_even a (b * 2 ^ ex)
      else round_half_even (a * 2 ^ (- ex)) b in
    if (971 <? ex) || ((ex =? 971) && (2 ^ 53 <=? mant)) then None
    else Some (mant, ex).

(** [ParseFloat(s, 64)] on the JSON number literal whose value is
    [m * 10^e]: the correctly rounded float64, or a range error. *)
Definition ParseFloat (m e : Z) : float64 + NumError :=
  let a := Z.abs m in
  let r := if 0 <=? e then round_ratio (a * 10 ^ e) 1
           else round_ratio a (10 ^ (- e)) in
  match r with
  | Some (mant, ex) => inl (Float64 (m <? 0) mant ex)
  | None => inr ErrRange
  end.

(** The number literal [m * 10^e] has the integer value [N] (as [36e2],
    [3600] and [3600.0] have the value 3600). *)
Definition integral (m e N : Z) : Prop :=
  if 0 <=? e then N = m * 10 ^ e else m = N * 10 ^ (- e).

(** Whether [ParseFloat] on the integer literal [n >= 0] is the binary64
    value that the Standard Library's specification of IEEE 754 arithmetic
    gives for [n]. *)
Definition agrees_with_binary64 (n : Z) : bool :=
  match ParseFloat n 0, binary_normalize 53 1024 n 0 false with
  | inl (Float64 _ m e), S754_finite _ m' e' =>
      m * 2 ^ (e + 1074) =? Z.pos m' * 2 ^ (e' + 1074)
  | inl (Float64 _ m _), S754_zero _ => m =? 0
  | inr _, S754_infinity _ => true
  | _, _ => false
  end.

End strconv.

(** The conversion [int(f)] of a float64: the fraction is discarded
    (truncation toward zero).  When the truncated value is not an [int] the
    language leaves the result to the implementation; amd64 yields the least
    [int]. *)
Definition int_of_float64 (f : strconv.float64) : Z :=
  match f with
  | strconv.Float64 neg mant exp =>
      let t := if 0 <=? exp then mant * 2 ^ exp else mant / 2 ^ (- exp) in
      let v := if neg then - t else t in
      if (int_min <=? v) && (v <=? int_max) then v else int_min
  end.

(** Whether the integer [n >= 0] is a float64: it has at most 53
    significant bits. *)
Definition is_float64 (n : Z) : bool :=
  n mod 2 ^ Z.max 0 (Z.log2 n - 52) =? 0.

(** ** Package unicode/utf8 *)

Module utf8.

Definition between (lo hi : nat) (c : ascii) : bool :=
  let n := nat_of_ascii c in (lo <=? n)%nat && (n <=? hi)%nat.

(** A continuation byte. *)
Definition cont (c : ascii) : bool := between 128 191 c.

(** [ValidString(s)]: [s] consists of valid UTF-8 encodings only, of one
    to four bytes, none overlong, none of a surrogate half and none beyond
    U+10FFFF. *)
Fixpoint ValidString (s : string) : bool :=
  match s with
  | EmptyString => true
  | String c1 r1 =>
      if between 0 127 c1 then ValidString r1
      else
        match r1 with
        | EmptyString => false
        | String c2 r2 =>
            if between 194 223 c1 then cont c2 && ValidString r2
            else
              match r2 with
              | EmptyString => false
              | String c3 r3 =>
                  if between 224 239 c1 then
                    (if between 224 224 c1 then between 160 191 c2
                     else if between 237 237 c1 then between 128 159 c2
                     else cont c2)
                    && cont c3 && ValidString r3
                  else
                    match r3 with
                    | EmptyString => false
                    | String c4 r4 =>
                        between 240 244 c1
                        && (if between 240 240 c1 then between 144 191 c2
                            else if between 244 244 c1
                                 then between 128 143 c2
                            else cont c2)
                        && cont c3 && cont c4 && ValidString r4
                    end
              end
        end
  end.

End utf8.

(** ** Package encoding/json *)

Module json.

(** A parsed JSON text.  A number keeps its literal, the decimal
    [m * 10^e]; an object keeps its members in the order, and with the
    repetitions, of the text. *)
Inductive value :=
  | Null
  | Bool (b : bool)
  | Number (m e : Z)
  | String (s : string)
  | Array (elems : list value)
  | Object (members : list (string * value)).

(** What [Unmarshal] reports.  [UnmarshalTypeError] carries the kind of the
    offending JSON value and the wire name of the struct field it was
    meant for; the offset and the Go type are left out. *)
Inductive error :=
  | UnmarshalTypeError (Value : string) (Field : string)
  | errorString (msg : string).

(** [decodeState.saveError]: the first error is the one reported. *)
Definition saveError (saved new : option error) : option error :=
  match saved with
  | Some _ => saved
  | None => new
  end.

Definition kind (v : value) : string :=
  match v with
  | Null => "null"
  | Bool _ => "bool"
  | Number _ _ => "number"
  | String _ => "string"
  | Array _ => "array"
  | Object _ => "object"
  end.

(** The dynamic values an [interface{}] holds in this file: what
    [Unmarshal] stores into an empty interface, and the [*int] that
    [MarshalJSON] stores there. *)
Inductive any :=
  | nil
  | any_bool (b : bool)
  | any_float64 (f : strconv.float64)
  | any_string (s : string)
  | any_slice (l : list any)
  | any_map (l : list (string * any))
  | any_int_ptr (n : Z).

(** [m[k] = v] on a [map[string]interface{}] kept as a list of entries. *)
Fixpoint map_assign (k : string) (v : any) (l : list (string * any))
  : list (string * any) :=
  match l with
  | [] => [(k, v)]
  | (k', v') :: r =>
      if decide (k = k') then (k, v) :: r else (k', v') :: map_assign k v r
  end.

(** An array as a [[]interface{}] and an object as a
    [map[string]interface{}], given how their elements are read. *)
Section interface.

Variable valueInterface : value → any * option error.

Fixpoint arrayInterface (l : list value) : list any * option error :=
  match l with
  | [] => ([], None)
  | x :: r =>
      let '(a, e1) := valueInterface x in
      let '(rest, e2) := arrayInterface r in
      (a :: rest, saveError e1 e2)
  end.

Fixpoint objectInterface (l : list (string * value))
    (m : list (string * any)) (err : option error)
  : list (string * any) * option error :=
  match l with
  | [] => (m, err)
  | (k, x) :: r =>
      let '(a, e1) := valueInterface x in
      objectInterface r (map_assign k a m) (saveError err e1)
  end.

End interface.

(** [decodeState.valueInterface]: the value as Go data, with the first
    error met on the way.  A number too large for a float64 is an error
    and leaves nil in its place. *)
Fixpoint valueInterface (field : string) (v : value) : any * option error :=
  match v with
  | Null => (nil, None)
  | Bool b => (any_bool b, None)
  | Number m e =>
      match strconv.ParseFloat m e with
      | inl f => (any_float64 f, None)
      | inr _ => (nil, Some (UnmarshalTypeError "number" field))
      end
  | String s => (any_string s, None)
  | Array elems =>
      let '(l, e) := arrayInterface (valueInterface field) elems in
      (any_slice l, e)
  | Object members =>
      let '(m, e) :=
        objectInterface (valueInterface field) members [] None in
      (any_map m, e)
  end.

(** Storing a JSON value into a field of type [interface{}] that holds
    [old]: as [valueInterface], but a number that does not parse leaves
    the field as it was. *)
Definition store_interface (field : string) (old : any) (v : value)
  : any * option error :=
  match v with
  | Number m e =>
      match strconv.ParseFloat m e with
      | inl f => (any_float64 f, None)
      | inr _ => (old, Some (UnmarshalTypeError "number" field))
      end
  | _ => valueInterface field v
  end.

(** Storing into a field of type [*bool].  [null] sets the pointer to nil;
    any other value first makes the pointer non-nil (allocating a false),
    then stores a boolean or reports the mismatch. *)
Definition store_bool_ptr (field : string) (old : option bool) (v : value)
  : option bool * option error :=
  match v with
  | Null => (None, None)
  | Bool b => (Some b, None)
  | _ => (Some (default false old), Some (UnmarshalTypeError (kind v) field))
  end.

(** Storing into a field of type [*string]. *)
Definition store_string_ptr (field : string) (old : option string) (v : value)
  : option string * option error :=
  match v with
  | Null => (None, None)
  | String s => (Some s, None)
  | _ => (Some (default EmptyString old),
          Some (UnmarshalTypeError (kind v) field))
  end.

(** A Go [map[string]string]: the nil map or a map. *)
Inductive gomap :=
  | map_nil
  | map_of (m : gmap string string).

Definition entries (m : gomap) : gmap string string :=
  match m with
  | map_nil => ∅
  | map_of m => m
  end.

(** The members of a JSON object stored into a [map[string]string]: each
    key is assigned, a string member its value, any other member the empty
    string (with an error unless it is [null]). *)
Fixpoint store_members (field : string) (l : list (string * value))
    (m : gmap string string) (err : option error)
  : gmap string string * option error :=
  match l with
  | [] => (m, err)
  | (k, x) :: r =>
      match x with
      | String s => store_members field r (<[k := s]> m) err
      | Null => store_members field r (<[k := EmptyString]> m) err
      | _ =>
          store_members field r (<[k := EmptyString]> m)
            (saveError err (Some (UnmarshalTypeError (kind x) field)))
      end
  end.

(** Storing into a field of type [*map[string]string].  An object is
    merged into the map the pointer already leads to. *)
Definition store_map_ptr (field : string) (old : option gomap) (v : value)
  : option gomap * option error :=
  match v with
  | Null => (None, None)
  | Object members =>
      let '(m, e) :=
        store_members field members (entries (default map_nil old)) None in
      (Some (map_of m), e)
  | _ => (Some (default map_nil old),
          Some (UnmarshalTypeError (kind v) field))
  end.

(** *** Matching object keys to struct fields

    A key selects the field whose name it equals, or else the field whose
    name it equals after case folding: ASCII letters are upper-cased and
    the two non-ASCII letters that fold to ASCII ones, U+017F (long s) and
    U+212A (Kelvin sign), become S and K.  Strings are UTF-8. *)

Definition upper (c : ascii) : ascii :=
  let n := nat_of_ascii c in
  if (97 <=? n)%nat && (n <=? 122)%nat then ascii_of_nat (n - 32) else c.

Definition is_byte (c : ascii) (n : nat) : bool := (nat_of_ascii c =? n)%nat.

Fixpoint foldName (s : string) : string :=
  match s with
  | EmptyString => EmptyString
  | String.String c1 r1 =>
      match r1 with
      | String.String c2 r2 =>
          if is_byte c1 197 && is_byte c2 191 then
            String.String "S" (foldName r2)
          else
            match r2 with
            | String.String c3 r3 =>
                if is_byte c1 226 && is_byte c2 132 && is_byte c3 170 then
                  String.String "K" (foldName r3)
                else String.String (upper c1) (foldName r1)
            | EmptyString => String.String (upper c1) (foldName r1)
            end
      | EmptyString => String.String (upper c1) (foldName r1)
      end
  end.

(** Whether the object key [key] selects the field of wire name [name]. *)
Definition matches (name key : string) : bool :=
  bool_decide (foldName key = foldName name).

(** *** Marshal *)

(** Object members in the order [Marshal] writes a map: by key. *)
Definition by_key (x y : string * value) : Prop := String.leb x.1 y.1.

#[export] Instance by_key_dec x y : Decision (by_key x y).
Proof. unfold by_key. apply _. Defined.

Definition sort_members (l : list (string * value)) : list (string * value) :=
  merge_sort by_key l.

(** [Marshal] of a [map[string]string]. *)
Definition Marshal_map (m : gomap) : value :=
  match m with
  | map_nil => Null
  | map_of m =>
      Object (sort_members (prod_map id String <$> map_to_list m))
  end.

(** The literal of a float64, as its exact decimal value.  (Go prints the
    shortest literal that reads back as the same float64; no function of
    this file marshals a float64.) *)
Definition Marshal_float64 (f : strconv.float64) : value :=
  match f with
  | strconv.Float64 neg mant exp =>
      let m := if neg then - mant else mant in
      if 0 <=? exp then Number (m * 2 ^ exp) 0
      else Number (m * 5 ^ (- exp)) exp
  end.

(** [Marshal] of the value held by an [interface{}]. *)
Fixpoint Marshal_any (a : any) : value :=
  match a with
  | nil => Null
  | any_bool b => Bool b
  | any_float64 f => Marshal_float64 f
  | any_string s => String s
  | any_slice l => Array (map Marshal_any l)
  | any_map l =>
      let fix members (l : list (string * any)) : list (string * value) :=
        match l with
        | [] => []
        | (k, x) :: r => (k, Marshal_any x) :: members r
        end in
      Object (sort_members (members l))
  | any_int_ptr n => Number n 0
  end.

(** A struct field tagged [omitempty]: written when the pointer or the
    interface is not nil. *)
Definition omitempty {A} (name : string) (enc : A → value) (x : option A)
  : list (string * value) :=
  match x with
  | Some a => [(name, enc a)]
  | None => []
  end.

(** The value of the last member of [members] whose key selects the field
    [name]: the member that decides what [Unmarshal] leaves in the field. *)
Fixpoint member (name : string) (members : list (string * value))
  : option value :=
  match members with
  | [] => None
  | (k, v) :: r =>
      match member name r with
      | Some v' => Some v'
      | None => if matches name k then Some v else None
      end
  end.

(** The value under the key [name], as a reader of the JSON text finds
    it (first member with exactly that key). *)
Fixpoint get (name : string) (members : list (string * value))
  : option value :=
  match members with
  | [] => None
  | (k, v) :: r => if decide (k = name) then Some v else get name r
  end.

(** The value of the last member with exactly the key [name]: the one a
    Go map is left with after the members were assigned in order. *)
Fixpoint get_last (name : string) (members : list (string * value))
  : option value :=
  match members with
  | [] => None
  | (k, v) :: r =>
      match get_last name r with
      | Some v' => Some v'
      | None => if decide (k = name) then Some v else None
      end
  end.

Definition string_or_null (v : value) : bool :=
  match v with
  | Null | String _ => true
  | _ => false
  end.

End json.

(** ** ClientJWTConfiguration and its codec *)

(** [ClientJWTConfiguration]: four pointer fields, nil when unset.
    [LifetimeInSeconds] is tagged [json:"-"], so the generic encoder and
    decoder never see it. *)
Record ClientJWTConfiguration := {
  LifetimeInSeconds : option Z;
  SecretEncoded : option bool;
  Scopes : option json.gomap;
  Algorithm : option string
}.

Definition set_LifetimeInSeconds (x : option Z) (jc : ClientJWTConfiguration) :=
  {| LifetimeInSeconds := x; SecretEncoded := SecretEncoded jc;
     Scopes := Scopes jc; Algorithm := Algorithm jc |}.

Definition set_SecretEncoded (x : option bool) (jc : ClientJWTConfiguration) :=
  {| LifetimeInSeconds := LifetimeInSeconds jc; SecretEncoded := x;
     Scopes := Scopes jc; Algorithm := Algorithm jc |}.

Definition set_Scopes (x : option json.gomap) (jc : ClientJWTConfiguration) :=
  {| LifetimeInSeconds := LifetimeInSeconds jc;
     SecretEncoded := SecretEncoded jc; Scopes := x;
     Algorithm := Algorithm jc |}.

Definition set_Algorithm (x : option string) (jc : ClientJWTConfiguration) :=
  {| LifetimeInSeconds := LifetimeInSeconds jc;
     SecretEncoded := SecretEncoded jc; Scopes := Scopes jc;
     Algorithm := x |}.

(** The zero value: what a decoder starts from when it allocates the
    record itself. *)
Definition zero : ClientJWTConfiguration :=
  {| LifetimeInSeconds := None; SecretEncoded := None;
     Scopes := None; Algorithm := None |}.

(** [clientJWTConfigurationWrapper], declared alike in both methods: the
    record itself, reached through the embedded pointer (so the decoder
    writes straight into the receiver), and the raw value of the wire field
    [lifetime_in_seconds]. *)
Record clientJWTConfigurationWrapper := {
  clientJWTConfiguration : ClientJWTConfiguration;
  RawLifetimeInSeconds : json.any
}.

Definition lifetime_in_seconds : string := "lifetime_in_seconds".

(** One member of the JSON object stored into the wrapper.  The wire names
    are those of the struct tags; a key that selects no field is skipped. *)
Definition store_member (alias : clientJWTConfigurationWrapper)
    (key : string) (v : json.value)
  : clientJWTConfigurationWrapper * option json.error :=
  let jc := clientJWTConfiguration alias in
  let raw := RawLifetimeInSeconds alias in
  if json.matches "secret_encoded" key then
    let '(x, e) := json.store_bool_ptr "secret_encoded" (SecretEncoded jc) v in
    ({| clientJWTConfiguration := set_SecretEncoded x jc;
        RawLifetimeInSeconds := raw |}, e)
  else if json.matches "scopes" key then
    let '(x, e) := json.store_map_ptr "scopes" (Scopes jc) v in
    ({| clientJWTConfiguration := set_Scopes x jc;
        RawLifetimeInSeconds := raw |}, e)
  else if json.matches "alg" key then
    let '(x, e) := json.store_string_ptr "alg" (Algorithm jc) v in
    ({| clientJWTConfiguration := set_Algorithm x jc;
        RawLifetimeInSeconds := raw |}, e)
  else if json.matches lifetime_in_seconds key then
    let '(x, e) := json.store_interface lifetime_in_seconds raw v in
    ({| clientJWTConfiguration := jc; RawLifetimeInSeconds := x |}, e)
  else (alias, None).

(** The members of an object, in order; decoding goes on after a type
    error and the first error is the one reported. *)
Fixpoint store_object (alias : clientJWTConfigurationWrapper)
    (members : list (string * json.value)) (err : option json.error)
  : clientJWTConfigurationWrapper * option json.error :=
  match members with
  | [] => (alias, err)
  | (k, v) :: r =>
      let '(alias', e) := store_member alias k v in
      store_object alias' r (json.saveError err e)
  end.

(** [json.Unmarshal(b, alias)] for a wrapper: [null] changes nothing, an
    object is stored member by member, anything else is a type error. *)
Definition Unmarshal (b : json.value) (alias : clientJWTConfigurationWrapper)
  : clientJWTConfigurationWrapper * option json.error :=
  match b with
  | json.Null => (alias, None)
  | json.Object members => store_object alias members None
  | _ => (alias, Some (json.UnmarshalTypeError (json.kind b) ""))
  end.

(** [fmt.Errorf("unexpected type for field lifetime_in_seconds")]: the
    error of a malformed field, which names the field. *)
Definition unexpectedTypeError : json.error :=
  json.errorString "unexpected type for field lifetime_in_seconds".

(** [(jc *ClientJWTConfiguration) UnmarshalJSON(b)]: the receiver after the
    call and the error returned ([None] is Go's nil). *)
Definition UnmarshalJSON (jc : ClientJWTConfiguration) (b : json.value)
  : ClientJWTConfiguration * option json.error :=
  let alias := {| clientJWTConfiguration := jc;
                  RawLifetimeInSeconds := json.nil |} in
  let '(alias, err) := Unmarshal b alias in
  let jc := clientJWTConfiguration alias in
  match err with
  | Some e => (jc, Some e)
  | None =>
      match RawLifetimeInSeconds alias with
      | json.nil => (jc, None)
      | json.any_float64 rawLifetimeInSeconds =>
          (set_LifetimeInSeconds
             (Some (int_of_float64 rawLifetimeInSeconds)) jc, None)
      | json.any_string rawLifetimeInSeconds =>
          match strconv.Atoi rawLifetimeInSeconds with
          | inr _ => (jc, Some unexpectedTypeError)
          | inl value => (set_LifetimeInSeconds (Some value) jc, None)
          end
      | _ => (jc, Some unexpectedTypeError)
      end
  end.

(** The first step of [UnmarshalJSON]: the wrapper around the receiver
    after [json.Unmarshal], and the error of [json.Unmarshal]. *)
Definition unmarshal_alias (jc : ClientJWTConfiguration) (b : json.value)
  : clientJWTConfigurationWrapper * option json.error :=
  Unmarshal b {| clientJWTConfiguration := jc;
                 RawLifetimeInSeconds := json.nil |}.

(** [json.Marshal(alias)]: the promoted fields of the embedded record in
    declaration order, then the raw field; every one is [omitempty]. *)
Definition Marshal (alias : clientJWTConfigurationWrapper) : json.value :=
  let jc := clientJWTConfiguration alias in
  json.Object
    (json.omitempty "secret_encoded" json.Bool (SecretEncoded jc)
     ++ json.omitempty "scopes" json.Marshal_map (Scopes jc)
     ++ json.omitempty "alg" json.String (Algorithm jc)
     ++ match RawLifetimeInSeconds alias with
        | json.nil => []
        | raw => [(lifetime_in_seconds, json.Marshal_any raw)]
        end).

(** [(jc *ClientJWTConfiguration) MarshalJSON()]; marshalling this wrapper
    has no error case. *)
Definition MarshalJSON (jc : ClientJWTConfiguration)
  : json.value * option json.error :=
  let alias := {| clientJWTConfiguration := jc;
                  RawLifetimeInSeconds := json.nil |} in
  let alias :=
    match LifetimeInSeconds jc with
    | Some n => {| clientJWTConfiguration := jc;
                   RawLifetimeInSeconds := json.any_int_ptr n |}
    | None => alias
    end in
  (Marshal alias, None).

(** Two wrappers that agree, except that the raw field may hold [x] in the
    first where it holds [y] in the second. *)
Definition alike (x y : json.any) (a1 a2 : clientJWTConfigurationWrapper)
  : Prop :=
  clientJWTConfiguration a1 = clientJWTConfiguration a2
  ∧ (RawLifetimeInSeconds a1 = RawLifetimeInSeconds a2
     ∨ RawLifetimeInSeconds a1 = x ∧ RawLifetimeInSeconds a2 = y).

(** The members [MarshalJSON] writes for the generic fields. *)
Definition generic_members (jc : ClientJWTConfiguration)
  : list (string * json.value) :=
  json.omitempty "secret_encoded" json.Bool (SecretEncoded jc)
  ++ json.omitempty "scopes" json.Marshal_map (Scopes jc)
  ++ json.omitempty "alg" json.String (Algorithm jc).

(** Whether the generic decoder stores the member [(key, v)] into the
    fields [secret_encoded], [scopes] and [alg] without a type error.
    (Members for other keys are not its concern here.) *)
Definition accepts (key : string) (v : json.value) : bool :=
  if json.matches "secret_encoded" key then
    match v with
    | json.Null | json.Bool _ => true
    | _ => false
    end
  else if json.matches "scopes" key then
    match v with
    | json.Null => true
    | json.Object kv => forallb (λ x, json.string_or_null x.2) kv
    | _ => false
    end
  else if json.matches "alg" key then json.string_or_null v
  else true.

Definition well_typed (members : list (string * json.value)) : bool :=
  forallb (λ x, accepts x.1 x.2) members.

(** Whether the strings of a record are valid UTF-8.  [Marshal] writes
    such strings as they are, and replaces each byte that is not part of
    a valid encoding by U+FFFD. *)
Definition valid_utf8 (jc : ClientJWTConfiguration) : bool :=
  match Algorithm jc with
  | Some s => utf8.ValidString s
  | None => true
  end
  && match Scopes jc with
     | Some (json.map_of m) =>
         forallb (λ x, utf8.ValidString x.1 && utf8.ValidString x.2)
           (map_to_list m)
     | _ => true
     end.

(** Whether the object key [key] selects one of the wrapper's fields. *)
Definition selects (key : string) : bool :=
  json.matches "secret_encoded" key || json.matches "scopes" key
  || json.matches "alg" key || json.matches lifetime_in_seconds key.

(** Whether [Unmarshal] reads the value [v] into an [interface{}] without
    error: no number inside it is too large for a float64. *)
Definition readable (v : json.value) : bool :=
  match (json.valueInterface lifetime_in_seconds v).2 with
  | None => true
  | Some _ => false
  end.

(** Whether the generic decoder stores the member [(key, v)] into the
    wrapper without a type error. *)
Definition stores (key : string) (v : json.value) : bool :=
  accepts key v
  && (negb (json.matches lifetime_in_seconds key) || readable v).

(** Whether the type switch of [UnmarshalJSON] takes the last member for
    [lifetime_in_seconds]: none, [null], a number, or a string that is a
    base-10 [int]. *)
Definition lifetime_ok (v : option json.value) : bool :=
  match v with
  | None | Some json.Null | Some (json.Number _ _) => true
  | Some (json.String s) =>
      strconv.base10 s && (int_min <=? strconv.base10_value s)
      && (strconv.base10_value s <=? int_max)
  | Some _ => false
  end.

(** The errors of the generic decoder, as opposed to the codec's own. *)
Definition type_error (e : json.error) : Prop :=
  ∃ V F, e = json.UnmarshalTypeError V F.


(** ** Credential and ClientManager.UpdateCredential *)

Module ClientManager.

(** A [time.Time] is an instant; nothing here looks inside it. *)
Definition Time := Z.

(** The address of a [time.Time] cell; [times] below maps the live
    addresses to their contents. *)
Definition addr := positive.

(** [Credential]: every field is a pointer, nil when unset.  Strings and
    booleans are kept by value; the three times are addresses, since
    [UpdateCredential] hands the caller's [ExpiresAt] pointer itself to the
    request payload. *)
Record Credential := {
  ID : option string;
  Name : option string;
  KeyID : option string;
  CredentialType : option string;
  PEM : option string;
  Algorithm : option string;
  ParseExpiryFromCert : option bool;
  CreatedAt : option addr;
  UpdatedAt : option addr;
  ExpiresAt : option addr
}.

Definition present {A} (name : string) (x : option A) : list string :=
  match x with
  | Some _ => [name]
  | None => []
  end.

(** The keys of the JSON object that [json.Marshal] writes for a
    credential: by the struct tags, one per field that is not nil. *)
Definition keys (c : Credential) : list string :=
  present "id" (ID c) ++ present "name" (Name c) ++ present "kid" (KeyID c)
  ++ present "credential_type" (CredentialType c) ++ present "pem" (PEM c)
  ++ present "alg" (Algorithm c)
  ++ present "parse_expiry_from_cert" (ParseExpiryFromCert c)
  ++ present "created_at" (CreatedAt c) ++ present "updated_at" (UpdatedAt c)
  ++ present "expires_at" (ExpiresAt c).

Section Request.

(** [RequestOption] and the values of Go's [error] interface are opaque
    to this file; [URI] is [Management.URI], which builds the address of
    a resource from its path segments. *)
Context {RequestOption error : Type}.
Variable URI : list string → string.

(** One call of [Management.Request]. *)
Record request := {
  method : string;
  uri : string;
  payload : Credential;
  options : list RequestOption
}.

(** A method of the manager, as the requests it issues: [Request r k]
    calls [m.Request] with [r] and goes on as [k] with the payload as
    the call left it (the response is decoded into the payload) and with
    the error the call returned. *)
Inductive action (A : Type) :=
  | Return (a : A)
  | Request (r : request) (k : Credential → option error → action A).

Arguments Return {A} a.
Arguments Request {A} r k.

(** What the transport and the server do with a request: the payload
    and the error returned, and the time cells afterwards. *)
Definition handler : Type :=
  request → gmap addr Time → Credential * option error * gmap addr Time.

(** Running an action against a handler: the result, the time cells and
    the requests issued, in order. *)
Fixpoint run {A} (h : handler) (a : action A) (times : gmap addr Time)
  : A * gmap addr Time * list request :=
  match a with
  | Return x => (x, times, [])
  | Request r k =>
      let '(c, err, times') := h r times in
      let '(x, times'', trace) := run h (k c err) times' in
      (x, times'', r :: trace)
  end.

(** [UpdateCredential(clientID, credentialID, credential, opts...)]:
    the caller's credential after the call, and the error returned. *)
Definition UpdateCredential (clientID credentialID : string)
    (credential : Credential) (opts : list RequestOption)
  : action (Credential * option error) :=
  let credentialClone :=
    {| ID := None; Name := None; KeyID := None; CredentialType := None;
       PEM := None; Algorithm := None; ParseExpiryFromCert := None;
       CreatedAt := None; UpdatedAt := None;
       ExpiresAt := ExpiresAt credential |} in
  Request
    {| method := "PATCH";
       uri := URI ["clients"; clientID; "credentials"; credentialID];
       payload := credentialClone;
       options := opts |}
    (fun credentialClone err =>
       match err with
       | Some e => Return (credential, Some e)
       | None =>
           Return
             ({| ID := ID credentialClone;
                 Name := Name credentialClone;
                 KeyID := KeyID credentialClone;
                 CredentialType := CredentialType credentialClone;
                 PEM := PEM credential;
                 Algorithm := Algorithm credentialClone;
                 ParseExpiryFromCert := ParseExpiryFromCert credential;
                 CreatedAt := CreatedAt credentialClone;
                 UpdatedAt := UpdatedAt credentialClone;
                 ExpiresAt := ExpiresAt credentialClone |}, None)
       end).

End Request.

Arguments Return {RequestOption error A} a.
Arguments Request {RequestOption error A} r k.

End ClientManager.

(** * Properties *)

(** ** strconv and the conversion to [int] *)

Section number_facts.

Import strconv.

Lemma round_half_even_exact (n d : Z) :
  0 < d → round_half_even (n * d) d = n.
Proof.
  intros Hd. unfold round_half_even.
  rewrite Z.div_mul, Z.mod_mul by lia.
  destruct (Z.ltb_spec (2 * 0) d); [done | lia].
Qed.

Lemma ge_pow2_int (n k : Z) :
  0 <= k → ge_pow2 n 1 k = (2 ^ k <=? n).
Proof.
  intros Hk. unfold ge_pow2.
  destruct (Z.leb_spec 0 k); [| lia]. by rewrite Z.mul_1_l.
Qed.

Lemma round_half_even_1 (n : Z) : round_half_even n 1 = n.
Proof.
  rewrite <- (Z.mul_1_r n) at 1. by apply round_half_even_exact.
Qed.

(** An integer below [2^53] is a float64: [ParseFloat] returns it
    unrounded, scaled to a 53-bit mantissa. *)
Lemma round_ratio_small (n : Z) :
  0 < n < 2 ^ 53 →
  round_ratio n 1 = Some (n * 2 ^ (52 - Z.log2 n), Z.log2 n - 52).
Proof.
  intros [Hpos Hlt]. unfold round_ratio.
  destruct (Z.eqb_spec n 0) as [-> | _]; [lia |].
  change (Z.log2 1) with 0. rewrite Z.sub_0_r.
  assert (Hlog : 0 <= Z.log2 n < 53).
  { split; [apply Z.log2_nonneg |]. by apply Z.log2_lt_pow2. }
  rewrite ge_pow2_int by lia.
  destruct (Z.log2_spec n Hpos) as [Hlo _].
  destruct (Z.leb_spec (2 ^ Z.log2 n) n) as [_ | ?]; [| lia].
  assert (Hex : Z.max (Z.log2 n - 52) (- 1074) = Z.log2 n - 52) by lia.
  rewrite Hex. clear Hex.
  rewrite !Z.mul_1_l, !round_half_even_1.
  destruct (Z.ltb_spec 971 (Z.log2 n - 52)); [lia |].
  destruct (Z.eqb_spec (Z.log2 n - 52) 971); [lia |]. simpl.
  destruct (Z.leb_spec 0 (Z.log2 n - 52)) as [H0 | Hneg].
  - assert (Z.log2 n = 52) as -> by lia.
    change (52 - 52) with 0. change (2 ^ 0) with 1.
    by rewrite round_half_even_1, Z.mul_1_r.
  - by replace (- (Z.log2 n - 52)) with (52 - Z.log2 n) by lia.
Qed.

(** [ParseFloat] rounds as IEEE 754 prescribes, on integers around the
    53-bit, the 64-bit and the overflow thresholds. *)
Example ParseFloat_rounds_to_nearest_even :
  forallb agrees_with_binary64
    [0; 1; 3600; 2 ^ 53 - 1; 2 ^ 53; 2 ^ 53 + 1; 2 ^ 53 + 2; 2 ^ 53 + 3;
     2 ^ 54 + 2; 2 ^ 54 + 6; 2 ^ 63 - 1; 2 ^ 63; 10 ^ 22; 10 ^ 23;
     2 ^ 1024 - 2 ^ 970 - 1; 2 ^ 1024 - 2 ^ 970; 2 ^ 1024; 10 ^ 400]
  = true.
Proof. by vm_compute. Qed.

(** Reading an integer literal of at most 53 bits and converting the
    float64 to [int] gives the integer back. *)
Lemma int_of_ParseFloat_exact (n : Z) :
  0 <= n <= 2 ^ 53 →
  ∃ f, ParseFloat n 0 = inl f ∧ int_of_float64 f = n.
Proof.
  intros [H0 H53]. unfold ParseFloat.
  rewrite Z.abs_eq by done.
  change (0 <=? 0) with true. cbv iota. change (10 ^ 0) with 1.
  rewrite Z.mul_1_r.
  destruct (Z.ltb_spec n 0) as [? | _]; [lia |].
  destruct (Z.eq_dec n 0) as [-> | Hn0]; [by eexists |].
  destruct (Z.eq_dec n (2 ^ 53)) as [-> | Hn53]; [by eexists |].
  rewrite round_ratio_small by lia.
  eexists; split; [done |]. unfold int_of_float64.
  assert (Hlog : 0 <= Z.log2 n < 53).
  { split; [apply Z.log2_nonneg |]. apply Z.log2_lt_pow2; lia. }
  assert (Hp : 0 < 2 ^ (52 - Z.log2 n)) by (apply Z.pow_pos_nonneg; lia).
  assert (Hv : (if 0 <=? Z.log2 n - 52
                then n * 2 ^ (52 - Z.log2 n) * 2 ^ (Z.log2 n - 52)
                else n * 2 ^ (52 - Z.log2 n) / 2 ^ (- (Z.log2 n - 52)))
               = n).
  { destruct (Z.leb_spec 0 (Z.log2 n - 52)).
    - assert (Z.log2 n = 52) as -> by lia.
      change (52 - 52) with 0. change (2 ^ 0) with 1. lia.
    - replace (- (Z.log2 n - 52)) with (52 - Z.log2 n) by lia.
      apply Z.div_mul. lia. }
  rewrite Hv. unfold int_min, int_max.
  destruct (Z.leb_spec (- 2 ^ 63) n); [| lia].
  destruct (Z.leb_spec n (2 ^ 63 - 1)); [done | lia].
Qed.

(** [Atoi] reads no string that is not a base-10 integer. *)
Lemma ParseUint_loop_not_digits (s : string) : ∀ n,
  forallb is_digit (list_ascii_of_string s) = false →
  ∃ e, ParseUint_loop s n = inr e.
Proof.
  induction s as [| c r IH]; intros n H; cbn in *; [done |].
  destruct (is_digit c); cbn in H; [| by eexists].
  destruct (maxUint64 / 10 + 1 <=? n); [by eexists |].
  destruct (maxUint64 <? n * 10 + digit_val c); [by eexists |].
  by apply IH.
Qed.

Lemma Atoi_not_base10 (s : string) :
  base10 s = false → ∃ e, Atoi s = inr e.
Proof.
  unfold Atoi, ParseInt, base10. destruct s as [| c r]; [by eexists |].
  destruct (if Ascii.eqb c "+" || Ascii.eqb c "-" then r else String c r)
    as [| c' r'] eqn:Hbody; intros H.
  - by eexists.
  - cbn [ParseUint].
    destruct (ParseUint_loop_not_digits (String c' r') 0 H) as [e ->].
    destruct e; by eexists.
Qed.

End number_facts.

(** ** The generic decoder on the wrapper *)

Section decoder_facts.

Implicit Types (alias : clientJWTConfigurationWrapper).
Implicit Types (ms : list (string * json.value)) (err : option json.error).

Lemma saveError_None err1 err2 :
  json.saveError err1 err2 = None ↔ err1 = None ∧ err2 = None.
Proof. destruct err1, err2; simpl; intuition congruence. Qed.

(** Two fields of distinct folded names are never selected by one key. *)
Lemma matches_distinct (n1 n2 k : string) :
  json.foldName n1 ≠ json.foldName n2 →
  json.matches n1 k = true → json.matches n2 k = false.
Proof.
  unfold json.matches. intros Hne H1.
  apply bool_decide_eq_true in H1. apply bool_decide_eq_false. congruence.
Qed.

(** [store_member], field by field. *)
Lemma store_member_cases alias k v :
  (json.matches "secret_encoded" k = true ∧
     store_member alias k v =
     (let '(x, e) := json.store_bool_ptr "secret_encoded"
                       (SecretEncoded (clientJWTConfiguration alias)) v in
      ({| clientJWTConfiguration :=
            set_SecretEncoded x (clientJWTConfiguration alias);
          RawLifetimeInSeconds := RawLifetimeInSeconds alias |}, e)))
  ∨ (json.matches "scopes" k = true ∧
     store_member alias k v =
     (let '(x, e) := json.store_map_ptr "scopes"
                       (Scopes (clientJWTConfiguration alias)) v in
      ({| clientJWTConfiguration :=
            set_Scopes x (clientJWTConfiguration alias);
          RawLifetimeInSeconds := RawLifetimeInSeconds alias |}, e)))
  ∨ (json.matches "alg" k = true ∧
     store_member alias k v =
     (let '(x, e) := json.store_string_ptr "alg"
                       (Algorithm (clientJWTConfiguration alias)) v in
      ({| clientJWTConfiguration :=
            set_Algorithm x (clientJWTConfiguration alias);
          RawLifetimeInSeconds := RawLifetimeInSeconds alias |}, e)))
  ∨ (json.matches lifetime_in_seconds k = true ∧
     store_member alias k v =
     (let '(x, e) := json.store_interface lifetime_in_seconds
                       (RawLifetimeInSeconds alias) v in
      ({| clientJWTConfiguration := clientJWTConfiguration alias;
          RawLifetimeInSeconds := x |}, e)))
  ∨ (json.matches "secret_encoded" k = false ∧
     json.matches "scopes" k = false ∧ json.matches "alg" k = false ∧
     json.matches lifetime_in_seconds k = false ∧
     store_member alias k v = (alias, None)).
Proof.
  unfold store_member.
  destruct (json.matches "secret_encoded" k) eqn:H1; [by left |].
  destruct (json.matches "scopes" k) eqn:H2; [by right; left |].
  destruct (json.matches "alg" k) eqn:H3; [by right; right; left |].
  destruct (json.matches lifetime_in_seconds k) eqn:H4.
  - by right; right; right; left.
  - by right; right; right; right.
Qed.

(** A key that selects one field selects no other. *)
Lemma matches_one (k : string) :
  (json.matches "secret_encoded" k = true →
     json.matches "scopes" k = false ∧ json.matches "alg" k = false ∧
     json.matches lifetime_in_seconds k = false)
  ∧ (json.matches "scopes" k = true →
     json.matches "secret_encoded" k = false ∧
     json.matches "alg" k = false ∧
     json.matches lifetime_in_seconds k = false)
  ∧ (json.matches "alg" k = true →
     json.matches "secret_encoded" k = false ∧
     json.matches "scopes" k = false ∧
     json.matches lifetime_in_seconds k = false)
  ∧ (json.matches lifetime_in_seconds k = true →
     json.matches "secret_encoded" k = false ∧
     json.matches "scopes" k = false ∧ json.matches "alg" k = false).
Proof.
  split_and!; intros Hsel; split_and!;
    (eapply matches_distinct; [| exact Hsel]); by vm_compute.
Qed.

(** *** A field that only its own members touch *)

Section field.

Context {X : Type}.
Variable name : string.
Variable proj : clientJWTConfigurationWrapper → X.

Hypothesis frame : ∀ alias k v,
  json.matches name k = false → proj (store_member alias k v).1 = proj alias.

(** With no member for the field, the field keeps its value. *)
Lemma store_object_untouched ms : ∀ alias err,
  json.member name ms = None →
  proj (store_object alias ms err).1 = proj alias.
Proof.
  induction ms as [| [k v] r IH]; intros alias err Hm; [done |].
  simpl in Hm. destruct (json.member name r) eqn:Hr; [done |].
  destruct (json.matches name k) eqn:Hk; [done |].
  simpl. destruct (store_member alias k v) as [alias' e] eqn:Hs.
  rewrite IH by done.
  by rewrite <- (frame alias k v Hk), Hs.
Qed.

End field.

End decoder_facts.

Section decoder_fields.

Implicit Types (alias : clientJWTConfigurationWrapper).
Local Arguments json.matches : simpl never.
Local Arguments store_member : simpl never.
Implicit Types (ms : list (string * json.value)) (err : option json.error).

(** Splits a goal about [store_member alias k v] into its five cases and
    names the pair a field decoder returns. *)
Local Ltac by_field alias k v :=
  destruct (store_member_cases alias k v)
    as [[Hsel ->] | [[Hsel ->] | [[Hsel ->] | [[Hsel ->] | Hsel]]]];
  [ destruct (json.store_bool_ptr _ _ _) as [? ?]
  | destruct (json.store_map_ptr _ _ _) as [? ?]
  | destruct (json.store_string_ptr _ _ _) as [? ?]
  | destruct (json.store_interface _ _ _) as [? ?]
  | destruct Hsel as (? & ? & ? & ? & ->) ].

Lemma frame_LifetimeInSeconds alias k v :
  LifetimeInSeconds (clientJWTConfiguration (store_member alias k v).1)
  = LifetimeInSeconds (clientJWTConfiguration alias).
Proof. by by_field alias k v. Qed.

Lemma frame_Raw alias k v :
  json.matches lifetime_in_seconds k = false →
  RawLifetimeInSeconds (store_member alias k v).1 = RawLifetimeInSeconds alias.
Proof. intros Hk. by_field alias k v; try done. congruence. Qed.

Lemma frame_SecretEncoded alias k v :
  json.matches "secret_encoded" k = false →
  SecretEncoded (clientJWTConfiguration (store_member alias k v).1)
  = SecretEncoded (clientJWTConfiguration alias).
Proof. intros Hk. by_field alias k v; try done. congruence. Qed.

Lemma frame_Scopes alias k v :
  json.matches "scopes" k = false →
  Scopes (clientJWTConfiguration (store_member alias k v).1)
  = Scopes (clientJWTConfiguration alias).
Proof. intros Hk. by_field alias k v; try done. congruence. Qed.

Lemma frame_Algorithm alias k v :
  json.matches "alg" k = false →
  Algorithm (clientJWTConfiguration (store_member alias k v).1)
  = Algorithm (clientJWTConfiguration alias).
Proof. intros Hk. by_field alias k v; try done. congruence. Qed.

(** The generic decoder never writes [LifetimeInSeconds]. *)
Lemma store_object_LifetimeInSeconds ms : ∀ alias err,
  LifetimeInSeconds (clientJWTConfiguration (store_object alias ms err).1)
  = LifetimeInSeconds (clientJWTConfiguration alias).
Proof.
  induction ms as [| [k v] r IH]; intros alias err; [done |].
  simpl. destruct (store_member alias k v) as [alias' e] eqn:Hs.
  rewrite IH. by rewrite <- (frame_LifetimeInSeconds alias k v), Hs.
Qed.

(** An error, once saved, is the error reported. *)
Lemma store_object_saved ms : ∀ alias e,
  (store_object alias ms (Some e)).2 = Some e.
Proof.
  induction ms as [| [k v] r IH]; intros alias e; [done |].
  simpl. destruct (store_member alias k v) as [alias' e']. apply IH.
Qed.

Lemma store_object_ok ms : ∀ alias err,
  (store_object alias ms err).2 = None → err = None.
Proof.
  intros alias [e |] H; [| done]. by rewrite store_object_saved in H.
Qed.

Lemma store_interface_ok field old v :
  (json.store_interface field old v).2 = None →
  (json.store_interface field old v).1 = (json.valueInterface field v).1.
Proof.
  destruct v; try done. simpl.
  by destruct (strconv.ParseFloat m e).
Qed.

(** After a decoding without error, the raw field holds the last member
    for [lifetime_in_seconds], as Go data. *)
Lemma store_object_Raw ms : ∀ alias err,
  (store_object alias ms err).2 = None →
  RawLifetimeInSeconds (store_object alias ms err).1
  = match json.member lifetime_in_seconds ms with
    | Some v => (json.valueInterface lifetime_in_seconds v).1
    | None => RawLifetimeInSeconds alias
    end.
Proof.
  induction ms as [| [k v] r IH]; intros alias err Hok; [done |].
  cbn [store_object json.member] in *.
  destruct (store_member alias k v) as [alias' e] eqn:Hs.
  rewrite IH by done.
  destruct (json.member lifetime_in_seconds r); [done |].
  apply store_object_ok, saveError_None in Hok as [_ ->].
  destruct (json.matches lifetime_in_seconds k) eqn:Hk.
  - destruct (matches_one k) as (_ & _ & _ & Honly).
    destruct (Honly Hk) as (Hse & Hsc & Halg).
    destruct (store_member_cases alias k v)
      as [[H1 _] | [[H1 _] | [[H1 _] | [[_ Heq] | (_ & _ & _ & H1 & _)]]]];
      [congruence | congruence | congruence | | congruence].
    rewrite Hs in Heq.
    destruct (json.store_interface lifetime_in_seconds
                (RawLifetimeInSeconds alias) v) as [x e'] eqn:Hi.
    injection Heq as -> <-. cbn [fst RawLifetimeInSeconds].
    pose proof (store_interface_ok lifetime_in_seconds
                  (RawLifetimeInSeconds alias) v) as Hv.
    rewrite Hi in Hv. by rewrite <- Hv.
  - by rewrite <- (frame_Raw alias k v Hk), Hs.
Qed.

(** The string members of an object stored into a map leave the saved
    error as it was. *)
Lemma store_members_ok field (kv : list (string * json.value)) :
  ∀ (m : gmap string string) err,
    (json.store_members field kv m err).2 = None
    ↔ err = None ∧ forallb (λ x, json.string_or_null x.2) kv = true.
Proof.
  induction kv as [| [k x] r IH]; intros m err; simpl; [tauto |].
  destruct x; simpl; rewrite IH, ?saveError_None; intuition congruence.
Qed.

(** What a map holds under a key after an object was stored into it. *)
Lemma store_members_lookup field (kv : list (string * json.value)) (k : string) :
  ∀ (m : gmap string string) err,
    (json.store_members field kv m err).1 !! k
    = match json.get_last k kv with
      | Some (json.String s) => Some s
      | Some _ => Some EmptyString
      | None => m !! k
      end.
Proof.
  induction kv as [| [k' x] r IH]; intros m err; [done |].
  simpl.
  assert (Hstep : ∀ (s : string) err',
    (json.store_members field r (<[k' := s]> m) err').1 !! k
    = match json.get_last k r with
      | Some (json.String s') => Some s'
      | Some _ => Some EmptyString
      | None => if decide (k' = k) then Some s else m !! k
      end).
  { intros s err'. rewrite IH. destruct (json.get_last k r); [done |].
    destruct (decide (k' = k)) as [-> | Hne].
    - by rewrite lookup_insert_eq.
    - by rewrite lookup_insert_ne. }
  destruct x; rewrite Hstep; destruct (json.get_last k r); try done;
    by destruct (decide (k' = k)).
Qed.

End decoder_fields.

(** ** UnmarshalJSON *)

Section UnmarshalJSON_facts.

Implicit Types (jc : ClientJWTConfiguration) (b : json.value).
Implicit Types (ms : list (string * json.value)).
Local Arguments json.matches : simpl never.
Local Arguments store_member : simpl never.

(** [UnmarshalJSON] in terms of its first step. *)
Lemma UnmarshalJSON_eq jc b :
  UnmarshalJSON jc b =
  let jc' := clientJWTConfiguration (unmarshal_alias jc b).1 in
  match (unmarshal_alias jc b).2 with
  | Some e => (jc', Some e)
  | None =>
      match RawLifetimeInSeconds (unmarshal_alias jc b).1 with
      | json.nil => (jc', None)
      | json.any_float64 f =>
          (set_LifetimeInSeconds (Some (int_of_float64 f)) jc', None)
      | json.any_string s =>
          match strconv.Atoi s with
          | inr _ => (jc', Some unexpectedTypeError)
          | inl value => (set_LifetimeInSeconds (Some value) jc', None)
          end
      | _ => (jc', Some unexpectedTypeError)
      end
  end.
Proof.
  unfold UnmarshalJSON, unmarshal_alias.
  by destruct (Unmarshal b _) as [alias [e |]].
Qed.

(** The first step leaves [LifetimeInSeconds] alone. *)
Lemma unmarshal_alias_LifetimeInSeconds jc b :
  LifetimeInSeconds (clientJWTConfiguration (unmarshal_alias jc b).1)
  = LifetimeInSeconds jc.
Proof.
  unfold unmarshal_alias, Unmarshal. destruct b; try done.
  apply store_object_LifetimeInSeconds.
Qed.

(** The raw field after a first step without error. *)
Lemma unmarshal_alias_Raw jc ms :
  (unmarshal_alias jc (json.Object ms)).2 = None →
  RawLifetimeInSeconds (unmarshal_alias jc (json.Object ms)).1
  = match json.member lifetime_in_seconds ms with
    | Some v => (json.valueInterface lifetime_in_seconds v).1
    | None => json.nil
    end.
Proof.
  unfold unmarshal_alias, Unmarshal. intros Hok.
  by rewrite store_object_Raw.
Qed.


(** [UnmarshalJSON] reports the error of its first step, if any. *)
Lemma UnmarshalJSON_first_error jc b e :
  (unmarshal_alias jc b).2 = Some e → (UnmarshalJSON jc b).2 = Some e.
Proof. intros H. by rewrite UnmarshalJSON_eq, H. Qed.

Lemma member_cons_None name k v ms :
  json.member name ((k, v) :: ms) = None
  ↔ json.matches name k = false ∧ json.member name ms = None.
Proof.
  cbn [json.member]. destruct (json.member name ms); [intuition congruence |].
  destruct (json.matches name k); intuition congruence.
Qed.

(** A member that does not select [lifetime_in_seconds] is stored
    without error exactly when it is [accepts]ed. *)
Lemma store_member_accepts alias k v :
  json.matches lifetime_in_seconds k = false →
  (store_member alias k v).2 = None ↔ accepts k v = true.
Proof.
  intros Hk. unfold accepts.
  destruct (store_member_cases alias k v)
    as [[H1 ->] | [[H1 ->] | [[H1 ->] | [[H1 _] | (H1 & H2 & H3 & _ & ->)]]]].
  - rewrite H1. by destruct v.
  - destruct (matches_one k) as (_ & Honly & _).
    destruct (Honly H1) as (-> & _ & _). rewrite H1.
    destruct v; try done. cbn [json.store_map_ptr].
    destruct (json.store_members _ _ _ _) as [m e] eqn:Hs. cbn [snd].
    pose proof (store_members_ok "scopes" members
      (json.entries (default json.map_nil
         (Scopes (clientJWTConfiguration alias)))) None) as Hok.
    rewrite Hs in Hok. cbn [snd] in Hok. rewrite Hok. tauto.
  - destruct (matches_one k) as (_ & _ & Honly & _).
    destruct (Honly H1) as (-> & -> & _). rewrite H1. by destruct v.
  - congruence.
  - by rewrite H1, H2, H3.
Qed.

(** Without a member for [lifetime_in_seconds], the first step succeeds
    exactly on the well-typed objects. *)
Lemma store_object_well_typed ms : ∀ alias err,
  json.member lifetime_in_seconds ms = None →
  (store_object alias ms err).2 = None ↔ err = None ∧ well_typed ms = true.
Proof.
  induction ms as [| [k v] r IH]; intros alias err Hm.
  - cbn. tauto.
  - apply member_cons_None in Hm as [Hk Hr].
    cbn [store_object well_typed forallb fst snd].
    destruct (store_member alias k v) as [alias' e] eqn:Hs.
    rewrite IH, saveError_None by done.
    pose proof (store_member_accepts alias k v Hk) as Hacc.
    rewrite Hs in Hacc. cbn [snd] in Hacc.
    fold (well_typed r). rewrite andb_true_iff, <- Hacc. tauto.
Qed.

End UnmarshalJSON_facts.

(** ** MarshalJSON *)

Section MarshalJSON_facts.

Implicit Types (jc : ClientJWTConfiguration).

(** The members [MarshalJSON] writes. *)
Lemma MarshalJSON_eq jc :
  MarshalJSON jc =
  (json.Object
     (json.omitempty "secret_encoded" json.Bool (SecretEncoded jc)
      ++ json.omitempty "scopes" json.Marshal_map (Scopes jc)
      ++ json.omitempty "alg" json.String (Algorithm jc)
      ++ json.omitempty lifetime_in_seconds (λ n, json.Number n 0)
           (LifetimeInSeconds jc)), None).
Proof. unfold MarshalJSON, Marshal. by destruct (LifetimeInSeconds jc). Qed.

(** Among the members written, only the last group is selected by
    [lifetime_in_seconds]. *)
Lemma MarshalJSON_lifetime_member jc out :
  MarshalJSON jc = (json.Object out, None) →
  json.get lifetime_in_seconds out
  = (λ n, json.Number n 0) <$> LifetimeInSeconds jc
  ∧ json.member lifetime_in_seconds out
    = (λ n, json.Number n 0) <$> LifetimeInSeconds jc
  ∧ ∀ k v, (k, v) ∈ out → json.matches lifetime_in_seconds k = true →
           Some v = (λ n, json.Number n 0) <$> LifetimeInSeconds jc.
Proof.
  rewrite MarshalJSON_eq. intros [= <-].
  destruct (SecretEncoded jc), (Scopes jc), (Algorithm jc),
    (LifetimeInSeconds jc); cbn [json.omitempty app fmap option_fmap option_map];
    (split; [by vm_compute | split; [by vm_compute |]]);
    intros k v Hin Hk;
    repeat (apply elem_of_cons in Hin as [[= -> ->] | Hin];
            [by vm_compute in Hk |]);
    by apply elem_of_nil in Hin.
Qed.

(** The members stored into a map from the members [Marshal] wrote for a
    map are all strings. *)
Lemma Marshal_map_strings (m : gmap string string) :
  forallb (λ x, json.string_or_null x.2)
    (json.sort_members (prod_map id json.String <$> map_to_list m)) = true.
Proof.
  apply forallb_forall. intros x Hin.
  apply list_elem_of_In in Hin. unfold json.sort_members in Hin.
  rewrite merge_sort_Permutation in Hin.
  apply list_elem_of_fmap in Hin as ([k s] & -> & _). done.
Qed.

End MarshalJSON_facts.

(** ** Decoding what was encoded *)

Section roundtrip_facts.

Implicit Types (jc : ClientJWTConfiguration).
Local Arguments json.matches : simpl never.
Local Arguments store_member : simpl never.

Lemma store_object_app (l1 l2 : list (string * json.value)) :
  ∀ alias err,
    store_object alias (l1 ++ l2) err
    = store_object (store_object alias l1 err).1 l2
        (store_object alias l1 err).2.
Proof.
  induction l1 as [| [k v] r IH]; intros alias err; [done |].
  cbn [app store_object]. destruct (store_member alias k v) as [a e].
  apply IH.
Qed.

Lemma member_app name (l1 l2 : list (string * json.value)) :
  json.member name (l1 ++ l2)
  = match json.member name l2 with
    | Some v => Some v
    | None => json.member name l1
    end.
Proof.
  induction l1 as [| [k v] r IH]; cbn [app json.member].
  - by destruct (json.member name l2).
  - rewrite IH. by destruct (json.member name l2).
Qed.

Lemma well_typed_app (l1 l2 : list (string * json.value)) :
  well_typed (l1 ++ l2) = well_typed l1 && well_typed l2.
Proof. apply forallb_app. Qed.

Lemma omitempty_member {A} name key (enc : A → json.value) x :
  json.matches name key = false →
  json.member name (json.omitempty key enc x) = None.
Proof. intros H. destruct x; cbn; by rewrite ?H. Qed.

Lemma omitempty_well_typed {A} key (enc : A → json.value) x :
  (∀ a, accepts key (enc a) = true) →
  well_typed (json.omitempty key enc x) = true.
Proof. intros H. destruct x; cbn; by rewrite ?H. Qed.

Lemma accepts_Marshal_map (g : json.gomap) :
  accepts "scopes" (json.Marshal_map g) = true.
Proof.
  unfold accepts.
  assert (json.matches "secret_encoded" "scopes" = false) as ->
    by (by vm_compute).
  assert (json.matches "scopes" "scopes" = true) as -> by (by vm_compute).
  destruct g as [| m]; [done |]. apply Marshal_map_strings.
Qed.

Lemma generic_members_well_typed jc :
  json.member lifetime_in_seconds (generic_members jc) = None
  ∧ well_typed (generic_members jc) = true.
Proof.
  unfold generic_members. split.
  - rewrite !member_app, !omitempty_member; by vm_compute.
  - rewrite !well_typed_app, !omitempty_well_typed; try done;
      intros x; first [apply accepts_Marshal_map | by vm_compute].
Qed.

(** Decoding the encoding of a record: no error in the first step, and
    the raw field holds the float64 read from the integer literal. *)
Lemma unmarshal_alias_MarshalJSON jc jc0 out :
  MarshalJSON jc = (out, None) →
  ∃ ms, out = json.Object ms
    ∧ match LifetimeInSeconds jc with
      | None =>
          (unmarshal_alias jc0 out).2 = None
          ∧ RawLifetimeInSeconds (unmarshal_alias jc0 out).1 = json.nil
      | Some n =>
          ∀ f, strconv.ParseFloat n 0 = inl f →
            (unmarshal_alias jc0 out).2 = None
            ∧ RawLifetimeInSeconds (unmarshal_alias jc0 out).1
              = json.any_float64 f
      end.
Proof.
  rewrite MarshalJSON_eq. intros [= <-]. eexists; split; [done |].
  destruct (generic_members_well_typed jc) as [Hm Hwt].
  unfold unmarshal_alias, Unmarshal.
  rewrite !app_assoc, <- (app_assoc _ _ (json.omitempty "alg" _ _)).
  fold (generic_members jc). rewrite store_object_app.
  set (alias0 := {| clientJWTConfiguration := jc0;
                    RawLifetimeInSeconds := json.nil |}).
  assert (Hgen : (store_object alias0 (generic_members jc) None).2 = None).
  { by apply store_object_well_typed. }
  assert (Hraw : RawLifetimeInSeconds
                   (store_object alias0 (generic_members jc) None).1
                 = json.nil).
  { by rewrite (store_object_untouched lifetime_in_seconds
                  RawLifetimeInSeconds frame_Raw). }
  destruct (store_object alias0 (generic_members jc) None) as [a e].
  cbn [fst snd] in *. subst e.
  destruct (LifetimeInSeconds jc) as [n |]; [| done].
  intros f Hf. cbn [json.omitempty store_object].
  destruct (store_member_cases a lifetime_in_seconds (json.Number n 0))
    as [[H1 _] | [[H1 _] | [[H1 _] | [[_ ->] | (_ & _ & _ & H1 & _)]]]];
    try (by vm_compute in H1).
  cbn [json.store_interface]. by rewrite Hf.
Qed.

End roundtrip_facts.

(** ** The codec of [lifetime_in_seconds]: the claims *)

Section roundtrip_claims.

Implicit Types (jc : ClientJWTConfiguration).
Implicit Types (ms : list (string * json.value)).
Local Arguments json.matches : simpl never.
Local Arguments store_member : simpl never.

(** C1, as stated, fails: the lifetime [2^53 + 1] is a valid
    non-negative [int], its encoding is the number [9007199254740993], and
    decoding that number yields [2^53 = 9007199254740992], because the
    decoder reads a number into a float64 before converting it to
    [int]. *)
Lemma roundtrip_loses_lifetime_above_2_53 :
  let n := 2 ^ 53 + 1 in
  let jc := set_LifetimeInSeconds (Some n) zero in
  0 <= n <= int_max
  ∧ MarshalJSON jc
    = (json.Object [(lifetime_in_seconds, json.Number n 0)], None)
  ∧ (UnmarshalJSON zero (MarshalJSON jc).1).2 = None
  ∧ LifetimeInSeconds (UnmarshalJSON zero (MarshalJSON jc).1).1
    = Some (2 ^ 53)
  ∧ LifetimeInSeconds (UnmarshalJSON zero (MarshalJSON jc).1).1 ≠ Some n.
Proof. by vm_compute. Qed.

(** C1 (amended): for every lifetime [n] with [0 <= n <= 2^53], encoding
    a record whose [LifetimeInSeconds] is [n] and decoding the result,
    into any receiver, succeeds and yields a record whose
    [LifetimeInSeconds] is [n]. *)
Theorem lifetime_roundtrip_up_to_2_53 jc jc0 (n : Z) :
  0 <= n <= 2 ^ 53 →
  LifetimeInSeconds jc = Some n →
  ∃ out jc',
    MarshalJSON jc = (out, None)
    ∧ UnmarshalJSON jc0 out = (jc', None)
    ∧ LifetimeInSeconds jc' = Some n.
Proof.
  intros Hn Hjc.
  destruct (int_of_ParseFloat_exact n Hn) as (f & Hf & Hint).
  destruct (MarshalJSON jc) as [out e] eqn:Hm.
  assert (e = None) as -> by (unfold MarshalJSON in Hm; congruence).
  destruct (unmarshal_alias_MarshalJSON jc jc0 out Hm) as (ms & -> & Hdec).
  rewrite Hjc in Hdec. destruct (Hdec f Hf) as [Hok Hraw].
  exists (json.Object ms), (UnmarshalJSON jc0 (json.Object ms)).1.
  split; [done |].
  rewrite UnmarshalJSON_eq. cbv zeta. rewrite Hok, Hraw.
  split; [done |]. cbn [fst LifetimeInSeconds set_LifetimeInSeconds].
  by rewrite Hint.
Qed.

Lemma lifetime_roundtrip_up_to_2_53_witness :
  0 <= 3600 <= 2 ^ 53
  ∧ LifetimeInSeconds (set_LifetimeInSeconds (Some 3600) zero) = Some 3600
  ∧ ∃ out jc',
      MarshalJSON (set_LifetimeInSeconds (Some 3600) zero) = (out, None)
      ∧ UnmarshalJSON zero out = (jc', None)
      ∧ LifetimeInSeconds jc' = Some 3600.
Proof.
  assert (H : 0 <= 3600 <= 2 ^ 53) by (by vm_compute).
  split; [exact H |]. split; [reflexivity |].
  exact (lifetime_roundtrip_up_to_2_53
           (set_LifetimeInSeconds (Some 3600) zero) zero 3600 H eq_refl).
Defined.

(** *** C2: the two wire forms decode alike *)

(** Storing a member keeps two wrappers alike, with the same error. *)
Lemma store_member_alike x y a1 a2 k v :
  alike x y a1 a2 →
  (store_member a1 k v).2 = (store_member a2 k v).2
  ∧ alike x y (store_member a1 k v).1 (store_member a2 k v).1.
Proof.
  intros [Hjc Hraw]. unfold store_member. rewrite Hjc.
  destruct (json.matches "secret_encoded" k).
  { destruct (json.store_bool_ptr _ _ _). by repeat split. }
  destruct (json.matches "scopes" k).
  { destruct (json.store_map_ptr _ _ _). by repeat split. }
  destruct (json.matches "alg" k).
  { destruct (json.store_string_ptr _ _ _). by repeat split. }
  destruct (json.matches lifetime_in_seconds k).
  - destruct v; cbn [json.store_interface];
      try (destruct (json.valueInterface _ _); split; [done |];
           split; [done | by left]).
    destruct (strconv.ParseFloat m e); cbn [fst snd].
    + split; [done |]. split; [done | by left].
    + split; [done |]. by split.
  - by repeat split.
Qed.

Lemma store_object_alike x y ms : ∀ a1 a2 err,
  alike x y a1 a2 →
  (store_object a1 ms err).2 = (store_object a2 ms err).2
  ∧ alike x y (store_object a1 ms err).1 (store_object a2 ms err).1.
Proof.
  induction ms as [| [k v] r IH]; intros a1 a2 err Ha; [done |].
  cbn [store_object].
  destruct (store_member_alike x y a1 a2 k v Ha) as [He Ha'].
  destruct (store_member a1 k v) as [a1' e1], (store_member a2 k v) as [a2' e2].
  cbn [fst snd] in *. subst e2. by apply IH.
Qed.

(** Storing under the exact wire name of the raw field. *)
Lemma store_member_lifetime alias v :
  store_member alias lifetime_in_seconds v
  = (let '(x, e) := json.store_interface lifetime_in_seconds
                      (RawLifetimeInSeconds alias) v in
     ({| clientJWTConfiguration := clientJWTConfiguration alias;
         RawLifetimeInSeconds := x |}, e)).
Proof.
  destruct (store_member_cases alias lifetime_in_seconds v)
    as [[H1 _] | [[H1 _] | [[H1 _] | [[_ ->] | (_ & _ & _ & H1 & _)]]]];
    try (by vm_compute in H1). done.
Qed.

(** A number and a string that denote the same [int] decode alike,
    whatever surrounds them. *)
Lemma UnmarshalJSON_number_or_string jc before after (m e n : Z) f s :
  strconv.ParseFloat m e = inl f → int_of_float64 f = n →
  strconv.Atoi s = inl n →
  UnmarshalJSON jc
    (json.Object (before ++ (lifetime_in_seconds, json.Number m e) :: after))
  = UnmarshalJSON jc
      (json.Object (before ++ (lifetime_in_seconds, json.String s) :: after)).
Proof.
  intros Hf Hint Hs. rewrite !UnmarshalJSON_eq. cbv zeta.
  unfold unmarshal_alias, Unmarshal. rewrite !store_object_app.
  destruct (store_object _ before None) as [a e0]. cbn [fst snd store_object].
  rewrite !store_member_lifetime. cbn [json.store_interface json.valueInterface].
  rewrite Hf.
  match goal with
  | |- context [store_object ?a1 after ?err] =>
      match goal with
      | |- context [store_object ?a2 after err] =>
          lazymatch a1 with
          | a2 => fail
          | _ =>
              destruct (store_object_alike (json.any_float64 f)
                          (json.any_string s) after a1 a2 err)
                as (He & Hjc & Hraw); [split; [done | by right] |]
          end
      end
  end.
  destruct (store_object _ after _) as [a1 e1].
  destruct (store_object _ after _) as [a2 e2].
  cbn [fst snd] in *. subst e2. rewrite Hjc.
  destruct e1; [done |].
  destruct Hraw as [-> | [-> ->]]; [done |]. by rewrite Hs, Hint.
Qed.


End roundtrip_claims.

Section canonical_form_claims.

Implicit Types (jc : ClientJWTConfiguration).
Implicit Types (ms : list (string * json.value)).
Local Arguments json.matches : simpl never.
Local Arguments store_member : simpl never.

(** C3: a record decoded, without error, from an object whose
    [lifetime_in_seconds] is a string [s] holds the integer [n] that [s]
    denotes, and encoding it writes [lifetime_in_seconds] as the JSON
    number [n]: the key is present, and every member written under it is
    that number, none a string. *)
Theorem string_form_is_written_back_as_number jc ms (s : string) jc' :
  json.member lifetime_in_seconds ms = Some (json.String s) →
  UnmarshalJSON jc (json.Object ms) = (jc', None) →
  ∃ n out,
    strconv.Atoi s = inl n
    ∧ LifetimeInSeconds jc' = Some n
    ∧ MarshalJSON jc' = (json.Object out, None)
    ∧ json.get lifetime_in_seconds out = Some (json.Number n 0)
    ∧ ∀ k v, (k, v) ∈ out → json.matches lifetime_in_seconds k = true →
             v = json.Number n 0.
Proof.
  intros Hm Hdec. rewrite UnmarshalJSON_eq in Hdec. cbv zeta in Hdec.
  destruct (unmarshal_alias jc (json.Object ms)).2 eqn:Hok; [done |].
  rewrite (unmarshal_alias_Raw jc ms Hok), Hm in Hdec.
  cbn [json.valueInterface fst] in Hdec.
  destruct (strconv.Atoi s) as [n | e]; [| done].
  injection Hdec as <-. exists n.
  eexists. split; [done |]. split; [done |].
  split; [apply MarshalJSON_eq |].
  destruct (MarshalJSON_lifetime_member _ _
              (MarshalJSON_eq (set_LifetimeInSeconds (Some n)
                 (clientJWTConfiguration
                    (unmarshal_alias jc (json.Object ms)).1))))
    as (Hget & _ & Hall).
  split; [exact Hget |].
  intros k v Hin Hk. specialize (Hall k v Hin Hk). by injection Hall.
Qed.

Lemma string_form_is_written_back_as_number_witness :
  json.member lifetime_in_seconds
    [(lifetime_in_seconds, json.String "3600")] = Some (json.String "3600")
  ∧ UnmarshalJSON zero
      (json.Object [(lifetime_in_seconds, json.String "3600")])
    = (set_LifetimeInSeconds (Some 3600) zero, None)
  ∧ ∃ n out,
      strconv.Atoi "3600" = inl n
      ∧ LifetimeInSeconds (set_LifetimeInSeconds (Some 3600) zero) = Some n
      ∧ MarshalJSON (set_LifetimeInSeconds (Some 3600) zero)
        = (json.Object out, None)
      ∧ json.get lifetime_in_seconds out = Some (json.Number n 0)
      ∧ ∀ k v, (k, v) ∈ out → json.matches lifetime_in_seconds k = true →
               v = json.Number n 0.
Proof.
  split; [by vm_compute |]. split; [by vm_compute |].
  apply (string_form_is_written_back_as_number zero
           [(lifetime_in_seconds, json.String "3600")] "3600");
    by vm_compute.
Defined.



End canonical_form_claims.

Section rejection_claims.

Implicit Types (jc : ClientJWTConfiguration).
Implicit Types (ms : list (string * json.value)).
Local Arguments json.matches : simpl never.
Local Arguments store_member : simpl never.




(** C6, as stated, fails: decoding the object whose [lifetime_in_seconds]
    is [null] returns no error and leaves the record as it was. *)
Lemma null_lifetime_is_not_rejected :
  UnmarshalJSON zero (json.Object [(lifetime_in_seconds, json.Null)])
  = (zero, None).
Proof. by vm_compute. Qed.

(** C6 (amended): a [null] under [lifetime_in_seconds] is taken as an
    absent field.  Decoding does not fail on its account: the error
    returned is that of the generic decoding of the object, none for the
    object that has this member alone, and [LifetimeInSeconds] stays as
    the receiver has it. *)
Theorem null_lifetime_is_absent jc ms :
  json.member lifetime_in_seconds ms = Some json.Null →
  (UnmarshalJSON jc (json.Object ms)).2
  = (unmarshal_alias jc (json.Object ms)).2
  ∧ LifetimeInSeconds (UnmarshalJSON jc (json.Object ms)).1
    = LifetimeInSeconds jc
  ∧ UnmarshalJSON jc (json.Object [(lifetime_in_seconds, json.Null)])
    = (jc, None).
Proof.
  intros Hm. split; [| split].
  - rewrite UnmarshalJSON_eq. cbv zeta.
    destruct (unmarshal_alias jc (json.Object ms)).2 eqn:Hok; [done |].
    by rewrite (unmarshal_alias_Raw jc ms Hok), Hm.
  - rewrite UnmarshalJSON_eq. cbv zeta.
    destruct (unmarshal_alias jc (json.Object ms)).2 eqn:Hok;
      cbn [fst]; [apply unmarshal_alias_LifetimeInSeconds |].
    rewrite (unmarshal_alias_Raw jc ms Hok), Hm. cbn [json.valueInterface fst].
    apply unmarshal_alias_LifetimeInSeconds.
  - destruct jc. by vm_compute.
Qed.

Lemma null_lifetime_is_absent_witness :
  let ms := [(lifetime_in_seconds, json.Null); ("alg", json.String "HS256")] in
  json.member lifetime_in_seconds ms = Some json.Null
  ∧ UnmarshalJSON zero (json.Object ms)
    = (set_Algorithm (Some "HS256") zero, None)
  ∧ (UnmarshalJSON zero (json.Object ms)).2
    = (unmarshal_alias zero (json.Object ms)).2
  ∧ LifetimeInSeconds (UnmarshalJSON zero (json.Object ms)).1
    = LifetimeInSeconds zero
  ∧ UnmarshalJSON zero (json.Object [(lifetime_in_seconds, json.Null)])
    = (zero, None).
Proof.
  cbv zeta. split; [by vm_compute |]. split; [by vm_compute |].
  exact (null_lifetime_is_absent zero
           [(lifetime_in_seconds, json.Null); ("alg", json.String "HS256")]
           eq_refl).
Defined.

End rejection_claims.

(** ** What an error leaves behind *)

Section partial_decoding.

Implicit Types (jc : ClientJWTConfiguration) (alias : clientJWTConfigurationWrapper).
Implicit Types (ms : list (string * json.value)) (err : option json.error).
Local Arguments json.matches : simpl never.
Local Arguments store_member : simpl never.

(** Induction on a JSON value, with the hypothesis for every element of
    an array and every member of an object. *)
Lemma value_ind_nested (P : json.value → Prop) :
  P json.Null → (∀ b, P (json.Bool b)) → (∀ m e, P (json.Number m e)) →
  (∀ s, P (json.String s)) →
  (∀ l, Forall P l → P (json.Array l)) →
  (∀ l, Forall (λ x, P x.2) l → P (json.Object l)) →
  ∀ v, P v.
Proof.
  intros HNull HBool HNumber HString HArray HObject.
  fix IH 1. intros [| b | m e | s | elems | members].
  - exact HNull.
  - apply HBool.
  - apply HNumber.
  - apply HString.
  - apply HArray. induction elems as [| x r IHr]; constructor.
    + apply IH.
    + exact IHr.
  - apply HObject. induction members as [| [k x] r IHr]; constructor.
    + apply IH.
    + exact IHr.
Qed.

Lemma saveError_type_error err1 err2 e :
  json.saveError err1 err2 = Some e →
  (∀ e', err1 = Some e' → type_error e') →
  (∀ e', err2 = Some e' → type_error e') →
  type_error e.
Proof. destruct err1; cbn; intros H H1 H2; auto. Qed.

(** Every error of the generic decoder is an [UnmarshalTypeError]. *)
Lemma valueInterface_type_error field v :
  ∀ e, (json.valueInterface field v).2 = Some e → type_error e.
Proof.
  induction v as [| b | m ex | s | elems IH | members IH]
    using value_ind_nested; cbn; try done.
  - intros e. destruct (strconv.ParseFloat m ex); [done |].
    intros [= <-]. by eexists _, _.
  - intros e.
    destruct (json.arrayInterface _ elems) as [l e0] eqn:Hl. cbn.
    intros ->. revert l e Hl.
    induction IH as [| x r Hx _ IHr]; intros l e; cbn; [done |].
    destruct (json.valueInterface field x) as [a e1].
    destruct (json.arrayInterface _ r) as [rest e2].
    intros [= _ He]. eapply saveError_type_error; [exact He | |].
    + intros e' ->. by apply Hx.
    + intros e' ->. by eapply IHr.
  - intros e.
    destruct (json.objectInterface _ members [] None) as [m e0] eqn:Hm. cbn.
    intros ->.
    assert (Hgen : ∀ acc err m e,
      json.objectInterface (json.valueInterface field) members acc err
      = (m, Some e) →
      (∀ e', err = Some e' → type_error e') → type_error e).
    { clear m e Hm. induction IH as [| [k x] r Hx _ IHr];
        intros acc err m e; cbn.
      - intros Heq Herr. injection Heq as _ He. by apply Herr.
      - cbn [snd] in Hx.
        destruct (json.valueInterface field x) as [a e1]. intros Hr Herr.
        eapply IHr; [exact Hr |]. intros e' He'.
        eapply saveError_type_error; [exact He' | done |].
        intros e'' ->. by apply Hx. }
    eapply Hgen; [exact Hm | done].
Qed.

Lemma store_members_type_error field (kv : list (string * json.value)) :
  ∀ (m : gmap string string) err e,
    (json.store_members field kv m err).2 = Some e →
    (∀ e', err = Some e' → type_error e') → type_error e.
Proof.
  induction kv as [| [k x] r IH]; intros m err e; cbn.
  - intros -> H. by apply H.
  - destruct x; intros Hr Herr; (eapply IH; [exact Hr |]); try done;
      intros e' He'; (eapply saveError_type_error; [exact He' | done |]);
      intros e'' [= <-]; by eexists _, _.
Qed.

Lemma store_member_type_error alias k v e :
  (store_member alias k v).2 = Some e → type_error e.
Proof.
  destruct (store_member_cases alias k v)
    as [[_ ->] | [[_ ->] | [[_ ->] | [[_ ->] | (_ & _ & _ & _ & ->)]]]].
  - destruct v; cbn; try done; intros [= <-]; by eexists _, _.
  - destruct v; cbn; try done; try (intros [= <-]; by eexists _, _).
    destruct (json.store_members _ _ _ _) as [m e0] eqn:Hs. cbn. intros ->.
    eapply (store_members_type_error "scopes" members); [by rewrite Hs | done].
  - destruct v; cbn; try done; intros [= <-]; by eexists _, _.
  - destruct (json.store_interface _ _ _) as [x e0] eqn:Hs. cbn. intros ->.
    destruct v as [| b | m ex | s | elems | members];
      cbn [json.store_interface] in Hs;
      try (eapply (valueInterface_type_error lifetime_in_seconds);
           by rewrite Hs).
    destruct (strconv.ParseFloat m ex); [done |].
    injection Hs as _ <-. by eexists _, _.
  - done.
Qed.

Lemma store_object_type_error ms : ∀ alias err e,
  (store_object alias ms err).2 = Some e →
  (∀ e', err = Some e' → type_error e') → type_error e.
Proof.
  induction ms as [| [k v] r IH]; intros alias err e; cbn [store_object].
  - cbn. intros -> H. by apply H.
  - destruct (store_member alias k v) as [alias' e1] eqn:Hs.
    intros Hr Herr. eapply IH; [exact Hr |]. intros e' He'.
    eapply saveError_type_error; [exact He' | done |].
    intros e'' ->. apply (store_member_type_error alias k v).
    by rewrite Hs.
Qed.

Lemma unmarshal_alias_type_error jc b e :
  (unmarshal_alias jc b).2 = Some e → type_error e.
Proof.
  unfold unmarshal_alias, Unmarshal.
  destruct b; cbn; try done; try (intros [= <-]; by eexists _, _).
  intros H. by eapply store_object_type_error.
Qed.

Lemma unexpectedTypeError_own : ¬ type_error unexpectedTypeError.
Proof. by intros (V & F & ?). Qed.

End partial_decoding.

Section last_member.

Implicit Types (jc : ClientJWTConfiguration) (alias : clientJWTConfigurationWrapper).
Implicit Types (ms : list (string * json.value)) (err : option json.error).
Local Arguments json.matches : simpl never.
Local Arguments store_member : simpl never.

Context {X : Type}.
Variable name : string.
Variable proj : clientJWTConfigurationWrapper → X.

Hypothesis frame : ∀ alias k v,
  json.matches name k = false → proj (store_member alias k v).1 = proj alias.

(** The field holds what storing the last member for it left there. *)
Lemma store_object_last_store ms (v : json.value) : ∀ alias err,
  json.member name ms = Some v →
  ∃ alias0 k0,
    json.matches name k0 = true
    ∧ proj (store_object alias ms err).1 = proj (store_member alias0 k0 v).1.
Proof.
  induction ms as [| [k w] r IH]; intros alias err Hm; [done |].
  cbn [json.member store_object] in *.
  destruct (store_member alias k w) as [alias' e] eqn:Hs.
  destruct (json.member name r) eqn:Hr.
  - apply IH. congruence.
  - destruct (json.matches name k) eqn:Hk; [| done].
    injection Hm as ->. exists alias, k. split; [done |].
    rewrite (store_object_untouched name proj frame) by done.
    by rewrite Hs.
Qed.

End last_member.

Section partial_decoding_claims.

Implicit Types (jc : ClientJWTConfiguration) (alias : clientJWTConfigurationWrapper).
Implicit Types (ms : list (string * json.value)).
Local Arguments json.matches : simpl never.
Local Arguments store_member : simpl never.

Lemma last_SecretEncoded ms alias err (x : bool) :
  json.member "secret_encoded" ms = Some (json.Bool x) →
  SecretEncoded (clientJWTConfiguration (store_object alias ms err).1)
  = Some x.
Proof.
  intros Hm.
  destruct (store_object_last_store "secret_encoded"
              (λ a, SecretEncoded (clientJWTConfiguration a))
              frame_SecretEncoded ms _ alias err Hm)
    as (a0 & k0 & Hk & ->).
  destruct (store_member_cases a0 k0 (json.Bool x))
    as [[_ ->] | [[H1 _] | [[H1 _] | [[H1 _] | (H1 & _)]]]];
    [done | | | | congruence];
    destruct (matches_one k0) as (Honly & _);
    destruct (Honly Hk) as (Hn1 & Hn2 & Hn3); congruence.
Qed.

Lemma last_Algorithm ms alias err (s : string) :
  json.member "alg" ms = Some (json.String s) →
  Algorithm (clientJWTConfiguration (store_object alias ms err).1) = Some s.
Proof.
  intros Hm.
  destruct (store_object_last_store "alg"
              (λ a, Algorithm (clientJWTConfiguration a))
              frame_Algorithm ms _ alias err Hm)
    as (a0 & k0 & Hk & ->).
  destruct (matches_one k0) as (_ & _ & Honly & _).
  destruct (Honly Hk) as (Hn1 & Hn2 & Hn3).
  destruct (store_member_cases a0 k0 (json.String s))
    as [[H1 _] | [[H1 _] | [[_ ->] | [[H1 _] | (_ & _ & H1 & _)]]]];
    [congruence | congruence | done | congruence | congruence].
Qed.

Lemma last_Scopes ms alias err (kv : list (string * json.value)) :
  json.member "scopes" ms = Some (json.Object kv) →
  ∃ m : gmap string string,
    Scopes (clientJWTConfiguration (store_object alias ms err).1)
    = Some (json.map_of m)
    ∧ ∀ k s, json.get_last k kv = Some (json.String s) → m !! k = Some s.
Proof.
  intros Hm.
  destruct (store_object_last_store "scopes"
              (λ a, Scopes (clientJWTConfiguration a))
              frame_Scopes ms _ alias err Hm)
    as (a0 & k0 & Hk & ->).
  destruct (matches_one k0) as (_ & Honly & _).
  destruct (Honly Hk) as (Hn1 & Hn2 & Hn3).
  destruct (store_member_cases a0 k0 (json.Object kv))
    as [[H1 _] | [[_ ->] | [[H1 _] | [[H1 _] | (_ & H1 & _)]]]];
    [congruence | | congruence | congruence | congruence].
  cbn [json.store_map_ptr].
  destruct (json.store_members _ _ _ _) as [m e] eqn:Hs.
  exists m. split; [done |]. intros k s Hlast.
  pose proof (store_members_lookup "scopes" kv k
    (json.entries (default json.map_nil
       (Scopes (clientJWTConfiguration a0)))) None) as Hl.
  by rewrite Hs, Hlast in Hl.
Qed.

(** C10: when [UnmarshalJSON] returns the error of a malformed
    [lifetime_in_seconds], the input is an object whose generic decoding
    went through, and the receiver is left as that decoding made it:
    [LifetimeInSeconds] as before, but [SecretEncoded], [Scopes] and
    [Algorithm] holding what the object's members for them say.  So an
    error can come with a receiver that has changed. *)
Theorem malformed_lifetime_leaves_other_fields_decoded jc b jc' :
  UnmarshalJSON jc b = (jc', Some unexpectedTypeError) →
  ∃ ms,
    b = json.Object ms
    ∧ (unmarshal_alias jc b).2 = None
    ∧ jc' = clientJWTConfiguration (unmarshal_alias jc b).1
    ∧ LifetimeInSeconds jc' = LifetimeInSeconds jc
    ∧ (∀ x, json.member "secret_encoded" ms = Some (json.Bool x) →
            SecretEncoded jc' = Some x)
    ∧ (∀ s, json.member "alg" ms = Some (json.String s) →
            Algorithm jc' = Some s)
    ∧ (∀ kv, json.member "scopes" ms = Some (json.Object kv) →
         ∃ m : gmap string string,
           Scopes jc' = Some (json.map_of m)
           ∧ ∀ k s, json.get_last k kv = Some (json.String s) →
                    m !! k = Some s).
Proof.
  intros Hdec.
  assert (Hok : (unmarshal_alias jc b).2 = None).
  { destruct (unmarshal_alias jc b).2 as [e |] eqn:He; [| done].
    pose proof (UnmarshalJSON_first_error jc b e He) as H.
    rewrite Hdec in H. injection H as <-.
    by destruct (unexpectedTypeError_own (unmarshal_alias_type_error jc b _ He)). }
  assert (Hjc' : jc' = clientJWTConfiguration (unmarshal_alias jc b).1).
  { rewrite UnmarshalJSON_eq in Hdec. cbv zeta in Hdec. rewrite Hok in Hdec.
    destruct (RawLifetimeInSeconds _); try done; try congruence.
    destruct (strconv.Atoi s); [done | congruence]. }
  destruct b as [| ? | ? ? | ? | ? | ms];
    [by unfold UnmarshalJSON in Hdec | by unfold unmarshal_alias in Hok ..|].
  exists ms. split; [done |]. split; [done |]. split; [done |].
  subst jc'. split; [apply unmarshal_alias_LifetimeInSeconds |].
  unfold unmarshal_alias, Unmarshal.
  split; [| split].
  - intros x. apply last_SecretEncoded.
  - intros s. apply last_Algorithm.
  - intros kv. apply last_Scopes.
Qed.

Lemma malformed_lifetime_leaves_other_fields_decoded_witness :
  let b := json.Object [("alg", json.String "RS256");
                        (lifetime_in_seconds, json.Bool true)] in
  UnmarshalJSON zero b
  = (set_Algorithm (Some "RS256") zero, Some unexpectedTypeError)
  ∧ set_Algorithm (Some "RS256") zero ≠ zero
  ∧ ∃ ms,
      b = json.Object ms
      ∧ (unmarshal_alias zero b).2 = None
      ∧ set_Algorithm (Some "RS256") zero
        = clientJWTConfiguration (unmarshal_alias zero b).1
      ∧ LifetimeInSeconds (set_Algorithm (Some "RS256") zero)
        = LifetimeInSeconds zero
      ∧ (∀ x, json.member "secret_encoded" ms = Some (json.Bool x) →
              SecretEncoded (set_Algorithm (Some "RS256") zero) = Some x)
      ∧ (∀ s, json.member "alg" ms = Some (json.String s) →
              Algorithm (set_Algorithm (Some "RS256") zero) = Some s)
      ∧ (∀ kv, json.member "scopes" ms = Some (json.Object kv) →
           ∃ m : gmap string string,
             Scopes (set_Algorithm (Some "RS256") zero)
             = Some (json.map_of m)
             ∧ ∀ k s, json.get_last k kv = Some (json.String s) →
                      m !! k = Some s).
Proof.
  cbv zeta. split; [by vm_compute |]. split; [by vm_compute |].
  apply (malformed_lifetime_leaves_other_fields_decoded zero
           (json.Object [("alg", json.String "RS256");
                         (lifetime_in_seconds, json.Bool true)])).
  by vm_compute.
Defined.

End partial_decoding_claims.

(** ** UpdateCredential: the claims *)

Section UpdateCredential_claims.

Import ClientManager.

Context {RequestOption error : Type}.
Variable URI : list string → string.

Implicit Types (h : @handler RequestOption error).
Implicit Types (credential : Credential) (opts : list RequestOption).
Implicit Types (times : gmap addr Time).

(** [UpdateCredential] issues exactly one request, whatever the handler
    answers. *)
Lemma UpdateCredential_trace h clientID credentialID credential opts times :
  (run h (UpdateCredential URI clientID credentialID credential opts) times).2
  = [ {| method := "PATCH";
         uri := URI ["clients"; clientID; "credentials"; credentialID];
         payload :=
           {| ID := None; Name := None; KeyID := None;
              CredentialType := None; PEM := None; Algorithm := None;
              ParseExpiryFromCert := None; CreatedAt := None;
              UpdatedAt := None; ExpiresAt := ExpiresAt credential |};
         options := opts |} ].
Proof.
  unfold UpdateCredential. cbn [run].
  destruct (h _ times) as [[c [e |]] times']; done.
Qed.

(** C8: the one request [UpdateCredential] sends is a PATCH to the
    credential's URI whose payload has every field nil except
    [ExpiresAt], which is the caller's; so the JSON object written for the
    payload has no key other than [expires_at]. *)
Theorem UpdateCredential_sends_only_ExpiresAt
    h clientID credentialID credential opts times :
  ∃ r,
    (run h (UpdateCredential URI clientID credentialID credential opts)
       times).2 = [r]
    ∧ method r = "PATCH"
    ∧ uri r = URI ["clients"; clientID; "credentials"; credentialID]
    ∧ options r = opts
    ∧ ExpiresAt (payload r) = ExpiresAt credential
    ∧ (ID (payload r) = None ∧ Name (payload r) = None
       ∧ KeyID (payload r) = None ∧ CredentialType (payload r) = None
       ∧ PEM (payload r) = None ∧ Algorithm (payload r) = None
       ∧ ParseExpiryFromCert (payload r) = None
       ∧ CreatedAt (payload r) = None ∧ UpdatedAt (payload r) = None)
    ∧ keys (payload r) = present "expires_at" (ExpiresAt credential)
    ∧ ∀ k, k ∈ keys (payload r) → k = "expires_at".
Proof.
  eexists. split; [apply UpdateCredential_trace |]. cbn.
  repeat (split; [done |]).
  intros k. destruct (ExpiresAt credential); cbn; intros Hk.
  - by apply list_elem_of_singleton in Hk.
  - by apply elem_of_nil in Hk.
Qed.

(** C7: when [UpdateCredential] returns no error, it has issued the one
    PATCH request and nothing else, and the caller's credential has the
    fields [ID], [Name], [CredentialType], [KeyID], [Algorithm],
    [CreatedAt], [UpdatedAt] and [ExpiresAt] of the payload as the request
    left it, decoded from the server's answer, while [PEM] and
    [ParseExpiryFromCert] are the caller's own. *)
Theorem UpdateCredential_copies_server_fields
    h clientID credentialID credential opts times credential' times' trace :
  run h (UpdateCredential URI clientID credentialID credential opts) times
  = ((credential', None), times', trace) →
  ∃ r credentialClone,
    trace = [r] ∧ method r = "PATCH"
    ∧ h r times = (credentialClone, None, times')
    ∧ ID credential' = ID credentialClone
    ∧ Name credential' = Name credentialClone
    ∧ CredentialType credential' = CredentialType credentialClone
    ∧ KeyID credential' = KeyID credentialClone
    ∧ Algorithm credential' = Algorithm credentialClone
    ∧ CreatedAt credential' = CreatedAt credentialClone
    ∧ UpdatedAt credential' = UpdatedAt credentialClone
    ∧ ExpiresAt credential' = ExpiresAt credentialClone
    ∧ PEM credential' = PEM credential
    ∧ ParseExpiryFromCert credential' = ParseExpiryFromCert credential.
Proof.
  unfold UpdateCredential. cbn [run].
  destruct (h _ times) as [[c [e |]] times1] eqn:Hh; cbn [run]; [done |].
  intros [= <- <- <-]. eexists _, c. split; [done |]. split; [done |].
  split; [exact Hh |]. by repeat split.
Qed.


End UpdateCredential_claims.

Section UpdateCredential_examples.

Import ClientManager.

(** A server's answer decoded into the payload: the fields the server
    returns, the times in fresh cells, and the payload's [ExpiresAt]
    cell updated in place. *)
Lemma UpdateCredential_copies_server_fields_witness :
  let URI := String.concat "/" in
  let h : @handler unit string := λ r times,
    ({| ID := Some "cred_1"; Name := Some "key"; KeyID := Some "kid-1";
        CredentialType := Some "public_key"; PEM := None;
        Algorithm := Some "RS256"; ParseExpiryFromCert := None;
        CreatedAt := Some 10%positive; UpdatedAt := Some 11%positive;
        ExpiresAt := ExpiresAt (payload r) |}, None,
     <[10%positive := 5]> (<[11%positive := 6]> times)) in
  let credential :=
    {| ID := None; Name := Some "key"; KeyID := None;
       CredentialType := Some "public_key"; PEM := Some "-----BEGIN";
       Algorithm := None; ParseExpiryFromCert := Some true;
       CreatedAt := None; UpdatedAt := None;
       ExpiresAt := Some 1%positive |} in
  let times : gmap addr Time := {[ 1%positive := 7 ]} in
  let credential' :=
    {| ID := Some "cred_1"; Name := Some "key"; KeyID := Some "kid-1";
       CredentialType := Some "public_key"; PEM := Some "-----BEGIN";
       Algorithm := Some "RS256"; ParseExpiryFromCert := Some true;
       CreatedAt := Some 10%positive; UpdatedAt := Some 11%positive;
       ExpiresAt := Some 1%positive |} in
  let times' := <[10%positive := 5]> (<[11%positive := 6]> times) in
  ∃ trace,
    run h (UpdateCredential URI "c1" "cred_1" credential [tt]) times
    = ((credential', None), times', trace)
    ∧ ∃ r credentialClone,
        trace = [r] ∧ method r = "PATCH"
        ∧ h r times = (credentialClone, None, times')
        ∧ ID credential' = ID credentialClone
        ∧ Name credential' = Name credentialClone
        ∧ CredentialType credential' = CredentialType credentialClone
        ∧ KeyID credential' = KeyID credentialClone
        ∧ Algorithm credential' = Algorithm credentialClone
        ∧ CreatedAt credential' = CreatedAt credentialClone
        ∧ UpdatedAt credential' = UpdatedAt credentialClone
        ∧ ExpiresAt credential' = ExpiresAt credentialClone
        ∧ PEM credential' = PEM credential
        ∧ ParseExpiryFromCert credential'
          = ParseExpiryFromCert credential.
Proof.
  intros URI h credential times credential' times'.
  exists (run h (UpdateCredential URI "c1" "cred_1" credential [tt]) times).2.
  split; [reflexivity |].
  apply (UpdateCredential_copies_server_fields URI h "c1" "cred_1"
           credential [tt] times credential' times').
  reflexivity.
Defined.


(** The payload holds the caller's own [ExpiresAt] pointer.  A handler
    that decodes an answer through it and then fails changes the instant
    that pointer leads to, although the caller's credential, a record of
    pointers, is returned as it was. *)
Example UpdateCredential_shares_ExpiresAt_cell :
  let URI := String.concat "/" in
  let h : @handler unit string := λ r times,
    match ExpiresAt (payload r) with
    | Some a => (payload r, Some "invalid response", <[a := 0]> times)
    | None => (payload r, Some "invalid response", times)
    end in
  let credential :=
    {| ID := Some "cred_1"; Name := None; KeyID := None;
       CredentialType := None; PEM := None; Algorithm := None;
       ParseExpiryFromCert := None; CreatedAt := None; UpdatedAt := None;
       ExpiresAt := Some 1%positive |} in
  let times : gmap addr Time := {[ 1%positive := 7 ]} in
  let '(result, times', _) :=
    run h (UpdateCredential URI "c1" "cred_1" credential [tt]) times in
  result = (credential, Some "invalid response")
  ∧ times !! 1%positive = Some 7
  ∧ times' !! 1%positive = Some 0.
Proof. by vm_compute. Qed.

End UpdateCredential_examples.

(** ** [strconv.Atoi] on base-10 integers *)

Section string_form_facts.

Import strconv.

Lemma is_digit_val (c : ascii) : is_digit c = true → 0 <= digit_val c <= 9.
Proof.
  unfold is_digit, digit_val. cbv zeta. rewrite andb_true_iff.
  intros [H1 H2]. apply Z.leb_le in H1, H2. lia.
Qed.

(** Digits only add to the number read so far. *)
Lemma digits_value_ge (s : string) : ∀ n,
  forallb is_digit (list_ascii_of_string s) = true → 0 <= n →
  n <= digits_value s n.
Proof.
  induction s as [| c r IH]; intros n H Hn; cbn in *; [lia |].
  apply andb_true_iff in H as [Hc Hr]. apply is_digit_val in Hc.
  specialize (IH (n * 10 + digit_val c) Hr). lia.
Qed.

(** On digits, the loop of [ParseUint] computes the number they denote,
    or reports that it does not fit in 64 bits. *)
Lemma ParseUint_loop_digits (s : string) : ∀ n,
  forallb is_digit (list_ascii_of_string s) = true →
  0 <= n <= maxUint64 →
  ParseUint_loop s n
  = if digits_value s n <=? maxUint64 then inl (digits_value s n)
    else inr ErrRange.
Proof.
  induction s as [| c r IH]; intros n H Hn; cbn [ParseUint_loop digits_value].
  - destruct (Z.leb_spec n maxUint64); [done | lia].
  - cbn in H. apply andb_true_iff in H as [Hc Hr]. rewrite Hc.
    pose proof (is_digit_val c Hc) as Hd.
    pose proof (digits_value_ge r (n * 10 + digit_val c) Hr) as Hge.
    unfold maxUint64 in *.
    destruct (Z.leb_spec ((2 ^ 64 - 1) / 10 + 1) n) as [Hcut | Hcut].
    { change ((2 ^ 64 - 1) / 10 + 1) with 1844674407370955162 in Hcut.
      destruct (Z.leb_spec (digits_value r (n * 10 + digit_val c))
                  (2 ^ 64 - 1)); [lia | done]. }
    change ((2 ^ 64 - 1) / 10 + 1) with 1844674407370955162 in Hcut.
    destruct (Z.ltb_spec (2 ^ 64 - 1) (n * 10 + digit_val c)) as [Hbig | Hfit].
    { destruct (Z.leb_spec (digits_value r (n * 10 + digit_val c))
                  (2 ^ 64 - 1)); [lia | done]. }
    apply IH; [done | lia].
Qed.

(** [Atoi] on a base-10 integer: the integer it denotes, if that is an
    [int], and a range error otherwise. *)
Lemma Atoi_base10 (s : string) :
  base10 s = true →
  Atoi s
  = if (int_min <=? base10_value s) && (base10_value s <=? int_max)
    then inl (base10_value s) else inr ErrRange.
Proof.
  unfold Atoi, ParseInt, base10, base10_value.
  destruct s as [| c r]; [done |].
  assert (Hloop : ∀ body, body ≠ EmptyString →
    forallb is_digit (list_ascii_of_string body) = true →
    ParseUint body
    = (if digits_value body 0 <=? maxUint64 then inl (digits_value body 0)
       else inr ErrRange) ∧ 0 <= digits_value body 0).
  { intros body Hne Hd. split.
    - destruct body; [done |]. cbn [ParseUint].
      apply ParseUint_loop_digits; [done | by vm_compute].
    - by apply digits_value_ge. }
  unfold int_min, int_max, maxUint64 in *.
  destruct (Ascii.eqb c "-") eqn:Hminus.
  - rewrite orb_true_r. intros Hb.
    destruct (Hloop r) as [-> Hpos]; [by destruct r | by destruct r |].
    cbn [negb andb].
    destruct (Z.leb_spec (digits_value r 0) (2 ^ 64 - 1)).
    + destruct (Z.ltb_spec (2 ^ 63) (digits_value r 0)).
      * destruct (Z.leb_spec (- 2 ^ 63) (- digits_value r 0)); [lia | done].
      * destruct (Z.leb_spec (- 2 ^ 63) (- digits_value r 0)); [| lia].
        destruct (Z.leb_spec (- digits_value r 0) (2 ^ 63 - 1)); [done | lia].
    + destruct (Z.leb_spec (- 2 ^ 63) (- digits_value r 0)); [lia | done].
  - rewrite orb_false_r. intros Hb.
    assert (Hun : ∀ body, body ≠ EmptyString →
      forallb is_digit (list_ascii_of_string body) = true →
      match ParseUint body with
      | inl un =>
          if negb false && (2 ^ 63 <=? un) then inr ErrRange
          else if false && (2 ^ 63 <? un) then inr ErrRange
          else inl un
      | inr ErrSyntax => inr ErrSyntax
      | inr ErrRange => inr ErrRange
      end
      = if (- 2 ^ 63 <=? digits_value body 0)
           && (digits_value body 0 <=? 2 ^ 63 - 1)
        then inl (digits_value body 0) else inr ErrRange).
    { intros body Hne Hd. destruct (Hloop body Hne Hd) as [-> Hpos].
      destruct (Z.leb_spec (- 2 ^ 63) (digits_value body 0)); [| lia].
      cbn [negb andb].
      destruct (Z.leb_spec (digits_value body 0) (2 ^ 64 - 1)).
      - destruct (Z.leb_spec (2 ^ 63) (digits_value body 0));
          destruct (Z.leb_spec (digits_value body 0) (2 ^ 63 - 1));
          first [done | lia].
      - destruct (Z.leb_spec (digits_value body 0) (2 ^ 63 - 1));
          [lia | done]. }
    destruct (Ascii.eqb c "+").
    + apply Hun; by destruct r.
    + by apply Hun.
Qed.

(** What [Atoi] accepts, and what it returns. *)
Lemma Atoi_inl (s : string) (n : Z) :
  Atoi s = inl n
  ↔ base10 s = true ∧ int_min <= base10_value s <= int_max
    ∧ n = base10_value s.
Proof.
  split.
  - intros Hs. destruct (base10 s) eqn:Hb.
    + rewrite Atoi_base10 in Hs by done.
      destruct (Z.leb_spec int_min (base10_value s)); [| done].
      destruct (Z.leb_spec (base10_value s) int_max); [| done].
      injection Hs as <-. split_and!; done.
    + destruct (Atoi_not_base10 s Hb) as [e He]. congruence.
  - intros (Hb & [H1 H2] & ->). rewrite Atoi_base10 by done.
    destruct (Z.leb_spec int_min (base10_value s)); [| lia].
    destruct (Z.leb_spec (base10_value s) int_max); [done | lia].
Qed.

End string_form_facts.

(** ** Integers as float64 *)

Section float64_facts.

Import strconv.

(** Rounding a quotient does not depend on a common factor. *)
Lemma round_half_even_scale (n d b : Z) :
  0 < d → 0 < b → round_half_even (n * b) (d * b) = round_half_even n d.
Proof.
  intros Hd Hb. unfold round_half_even.
  rewrite Z.div_mul_cancel_r, Z.mul_mod_distr_r by lia. cbv zeta.
  pose proof (Z.mod_pos_bound n d Hd) as Hr.
  destruct (Z.ltb_spec (2 * (n mod d)) d);
    destruct (Z.ltb_spec (2 * (n mod d * b)) (d * b)); try nia.
  destruct (Z.ltb_spec d (2 * (n mod d)));
    destruct (Z.ltb_spec (d * b) (2 * (n mod d * b))); try nia; done.
Qed.

(** The float64 nearest to a positive integer [N], given as a fraction
    [N * b / b]: the integer rounded to 53 significant bits. *)
Lemma round_ratio_scale (N b : Z) :
  0 < N → 0 < b →
  round_ratio (N * b) b
  = let ex := Z.log2 N - 52 in
    let mant := if 0 <=? ex then round_half_even N (2 ^ ex)
                else N * 2 ^ (- ex) in
    if (971 <? ex) || ((ex =? 971) && (2 ^ 53 <=? mant)) then None
    else Some (mant, ex).
Proof.
  intros HN Hb. unfold round_ratio.
  destruct (Z.eqb_spec (N * b) 0) as [? | _]; [nia |].
  pose proof (Z.log2_nonneg N) as HL.
  destruct (Z.log2_spec N HN) as [Hlo Hhi].
  pose proof (Z.log2_mul_below N b HN Hb) as Hbelow.
  pose proof (Z.log2_mul_above N b ltac:(lia) ltac:(lia)) as Habove.
  assert (Hk : (if ge_pow2 (N * b) b (Z.log2 (N * b) - Z.log2 b)
                then Z.log2 (N * b) - Z.log2 b
                else Z.log2 (N * b) - Z.log2 b - 1) = Z.log2 N).
  { unfold ge_pow2.
    destruct (Z.leb_spec 0 (Z.log2 (N * b) - Z.log2 b)); [| lia].
    destruct (Z.eq_dec (Z.log2 (N * b) - Z.log2 b) (Z.log2 N)) as [-> | Hne].
    - destruct (Z.leb_spec (b * 2 ^ Z.log2 N) (N * b)); [done | nia].
    - assert (Z.log2 (N * b) - Z.log2 b = Z.succ (Z.log2 N)) as -> by lia.
      destruct (Z.leb_spec (b * 2 ^ Z.succ (Z.log2 N)) (N * b)); [nia | lia]. }
  rewrite Hk. clear Hk Hbelow Habove. cbv zeta.
  assert (Hex : Z.max (Z.log2 N - 52) (- 1074) = Z.log2 N - 52) by lia.
  rewrite Hex. clear Hex.
  destruct (Z.leb_spec 0 (Z.log2 N - 52)) as [Hex | Hex].
  - assert (Hp : 0 < 2 ^ (Z.log2 N - 52)) by (apply Z.pow_pos_nonneg; lia).
    rewrite (Z.mul_comm b (2 ^ _)), round_half_even_scale by done. done.
  - replace (N * b * 2 ^ (- (Z.log2 N - 52)))
      with (N * 2 ^ (- (Z.log2 N - 52)) * b) by lia.
    by rewrite round_half_even_exact.
Qed.

(** For an integer below [2^64] there is no overflow. *)
Lemma round_ratio_int (N b : Z) :
  0 < N < 2 ^ 64 → 0 < b →
  round_ratio (N * b) b
  = Some (if 0 <=? Z.log2 N - 52
          then round_half_even N (2 ^ (Z.log2 N - 52))
          else N * 2 ^ (52 - Z.log2 N), Z.log2 N - 52).
Proof.
  intros [HN H64] Hb. rewrite round_ratio_scale by done. cbv zeta.
  assert (Z.log2 N < 64) by (by apply Z.log2_lt_pow2).
  destruct (Z.ltb_spec 971 (Z.log2 N - 52)); [lia |].
  destruct (Z.eqb_spec (Z.log2 N - 52) 971); [lia |]. cbn [orb andb].
  by replace (- (Z.log2 N - 52)) with (52 - Z.log2 N) by lia.
Qed.

(** The [int] read back from the float64 nearest to [N] is [N] exactly
    when [N] is a float64. *)
Lemma int_of_round_ratio (N b : Z) (neg : bool) :
  0 < N <= 2 ^ 63 → 0 < b → (neg = false → N < 2 ^ 63) →
  ∃ mant ex,
    round_ratio (N * b) b = Some (mant, ex)
    ∧ (int_of_float64 (Float64 neg mant ex) = (if neg then - N else N)
       ↔ is_float64 N = true).
Proof.
  intros [HN H63] Hb Hneg. rewrite round_ratio_int by lia.
  eexists _, _. split; [done |].
  pose proof (Z.log2_nonneg N) as HL.
  destruct (Z.log2_spec N HN) as [Hlo Hhi].
  unfold is_float64, int_of_float64, int_min, int_max.
  destruct (Z.leb_spec 0 (Z.log2 N - 52)) as [Hex | Hex].
  - rewrite Z.max_r by lia.
    set (d := 2 ^ (Z.log2 N - 52)).
    assert (Hd : 0 < d) by (apply Z.pow_pos_nonneg; lia).
    set (t := round_half_even N d * d).
    assert (Ht : t mod d = 0) by apply Z.mod_mul, Z.neq_sym, Z.lt_neq, Hd.
    destruct (Z.eqb_spec (N mod d) 0) as [Hrep | Hrep].
    + assert (Hexact : t = N).
      { pose proof (round_half_even_exact (N / d) d Hd) as Hq.
        pose proof (Z.div_mod N d ltac:(lia)) as Hdm.
        replace (N / d * d) with N in Hq by lia. unfold t. rewrite Hq. lia. }
      rewrite Hexact. split; [done | intros _].
      destruct neg.
      * destruct (Z.leb_spec (- 2 ^ 63) (- N)); [| lia].
        destruct (Z.leb_spec (- N) (2 ^ 63 - 1)); [done | lia].
      * specialize (Hneg eq_refl).
        destruct (Z.leb_spec (- 2 ^ 63) N); [| lia].
        destruct (Z.leb_spec N (2 ^ 63 - 1)); [done | lia].
    + split; [| done]. intros Hv. exfalso.
      assert (Hne : t ≠ N) by congruence.
      assert (H2 : (2 ^ 63) mod d = 0).
      { unfold d. replace 63 with (63 - (Z.log2 N - 52) + (Z.log2 N - 52)) at 1
          by lia.
        assert (Z.log2 N < 64) by (apply Z.log2_lt_pow2; lia).
        rewrite Z.pow_add_r by lia. apply Z.mod_mul. lia. }
      destruct neg.
      * destruct ((- 2 ^ 63 <=? - t) && (- t <=? 2 ^ 63 - 1)); [lia |].
        assert (N = 2 ^ 63) by lia. congruence.
      * destruct ((- 2 ^ 63 <=? t) && (t <=? 2 ^ 63 - 1)); lia.
  - rewrite Z.max_l by lia. change (2 ^ 0) with 1. rewrite Z.mod_1_r.
    split; [done | intros _].
    destruct (Z.leb_spec 0 (Z.log2 N - 52)); [lia |].
    replace (- (Z.log2 N - 52)) with (52 - Z.log2 N) by lia.
    rewrite Z.div_mul by (apply Z.pow_nonzero; lia).
    assert (N < 2 ^ 53).
    { apply Z.lt_le_trans with (2 ^ Z.succ (Z.log2 N)); [done |].
      apply Z.pow_le_mono_r; lia. }
    destruct neg.
    + destruct (Z.leb_spec (- 2 ^ 63) (- N)); [| lia].
      destruct (Z.leb_spec (- N) (2 ^ 63 - 1)); [done | lia].
    + destruct (Z.leb_spec (- 2 ^ 63) N); [| lia].
      destruct (Z.leb_spec N (2 ^ 63 - 1)); [done | lia].
Qed.

(** A number literal with an integer value [N] that is an [int]: the
    float64 read for it converts back to [N] exactly when [|N|] is a
    float64. *)
Lemma int_of_ParseFloat_integral (m e N : Z) :
  integral m e N → int_min <= N <= int_max →
  ∃ f, ParseFloat m e = inl f
    ∧ (int_of_float64 f = N ↔ is_float64 (Z.abs N) = true).
Proof.
  unfold integral, int_min, int_max. intros Hint HN.
  destruct (Z.eq_dec N 0) as [-> | HN0].
  { assert (m = 0) as ->.
    { destruct (Z.leb_spec 0 e); [| lia].
      assert (0 < 10 ^ e) by (apply Z.pow_pos_nonneg; lia). nia. }
    unfold ParseFloat. exists (Float64 false 0 0).
    split; [by destruct (0 <=? e) | by vm_compute]. }
  set (b := if 0 <=? e then 1 else 10 ^ (- e)).
  assert (Hb : 0 < b).
  { unfold b. destruct (Z.leb_spec 0 e); [lia |]. apply Z.pow_pos_nonneg; lia. }
  assert (Hp : 0 <= e → 0 < 10 ^ e) by (intros; apply Z.pow_pos_nonneg; lia).
  assert (Hsign : (m <? 0) = (N <? 0)).
  { destruct (Z.leb_spec 0 e).
    - specialize (Hp ltac:(lia)). subst N.
      destruct (Z.ltb_spec m 0), (Z.ltb_spec (m * 10 ^ e) 0); try done; nia.
    - subst m. fold b in Hb |- *.
      destruct (Z.ltb_spec (N * b) 0), (Z.ltb_spec N 0); try done; nia. }
  assert (Hr : (if 0 <=? e then round_ratio (Z.abs m * 10 ^ e) 1
                else round_ratio (Z.abs m) (10 ^ (- e)))
               = round_ratio (Z.abs N * b) b).
  { unfold b. destruct (Z.leb_spec 0 e).
    - specialize (Hp ltac:(lia)). subst N.
      by rewrite Z.mul_1_r, Z.abs_mul, (Z.abs_eq (10 ^ e)) by lia.
    - subst m. rewrite Z.abs_mul. f_equal. f_equal.
      apply Z.abs_eq, Z.lt_le_incl. apply Z.pow_pos_nonneg; lia. }
  unfold ParseFloat. cbv zeta. rewrite Hr, Hsign.
  destruct (int_of_round_ratio (Z.abs N) b (N <? 0))
    as (mant & ex & -> & Hiff); [lia | done | |].
  { destruct (Z.ltb_spec N 0); [done | lia]. }
  eexists; split; [done |]. rewrite <- Hiff.
  destruct (Z.ltb_spec N 0).
  - by rewrite Z.abs_neq, Z.opp_involutive by lia.
  - by rewrite Z.abs_eq by lia.
Qed.

End float64_facts.

(** ** The generic decoder: errors *)

Section decoding_facts.

Implicit Types (jc : ClientJWTConfiguration) (alias : clientJWTConfigurationWrapper).
Implicit Types (ms : list (string * json.value)) (err : option json.error).
Local Arguments json.matches : simpl never.
Local Arguments store_member : simpl never.

Lemma int_of_float64_int (f : strconv.float64) :
  int_min <= int_of_float64 f <= int_max.
Proof.
  destruct f as [neg mant ex]. unfold int_of_float64. cbv zeta.
  match goal with |- context [if ?c then _ else _] =>
    match c with andb _ _ => destruct c eqn:Hc end end.
  - apply andb_true_iff in Hc as [H1 H2]. apply Z.leb_le in H1, H2. lia.
  - by vm_compute.
Qed.

Lemma saveError_None_r err : json.saveError err None = err.
Proof. by destruct err. Qed.

(** Whether storing a member fails does not depend on what is stored
    into. *)
Lemma store_members_error field (kv : list (string * json.value)) :
  ∀ (m1 m2 : gmap string string) err,
    (json.store_members field kv m1 err).2
    = (json.store_members field kv m2 err).2.
Proof.
  induction kv as [| [k x] r IH]; intros m1 m2 err; [done |].
  destruct x; apply IH.
Qed.

Lemma store_interface_error field old v :
  (json.store_interface field old v).2 = (json.valueInterface field v).2.
Proof.
  destruct v; try done. simpl. by destruct (strconv.ParseFloat m e).
Qed.

Lemma store_member_same a1 a2 k v :
  RawLifetimeInSeconds a1 = RawLifetimeInSeconds a2 →
  (store_member a1 k v).2 = (store_member a2 k v).2
  ∧ RawLifetimeInSeconds (store_member a1 k v).1
    = RawLifetimeInSeconds (store_member a2 k v).1.
Proof.
  intros Hraw. unfold store_member. rewrite Hraw.
  destruct (json.matches "secret_encoded" k).
  { by destruct v. }
  destruct (json.matches "scopes" k).
  { destruct v; try done. cbn [json.store_map_ptr].
    pose proof (store_members_error "scopes" members
      (json.entries (default json.map_nil (Scopes (clientJWTConfiguration a1))))
      (json.entries (default json.map_nil (Scopes (clientJWTConfiguration a2))))
      None) as He.
    do 2 destruct (json.store_members _ _ _ _). by cbn in *. }
  destruct (json.matches "alg" k).
  { by destruct v. }
  destruct (json.matches lifetime_in_seconds k); [| done].
  by destruct (json.store_interface _ _ _).
Qed.

Lemma store_member_error a1 a2 k v :
  (store_member a1 k v).2 = (store_member a2 k v).2.
Proof.
  unfold store_member.
  destruct (json.matches "secret_encoded" k).
  { by destruct v. }
  destruct (json.matches "scopes" k).
  { destruct v; try done. cbn [json.store_map_ptr].
    pose proof (store_members_error "scopes" members
      (json.entries (default json.map_nil (Scopes (clientJWTConfiguration a1))))
      (json.entries (default json.map_nil (Scopes (clientJWTConfiguration a2))))
      None) as He.
    do 2 destruct (json.store_members _ _ _ _). by cbn in *. }
  destruct (json.matches "alg" k).
  { by destruct v. }
  destruct (json.matches lifetime_in_seconds k); [| done].
  pose proof (store_interface_error lifetime_in_seconds
                (RawLifetimeInSeconds a1) v) as E1.
  pose proof (store_interface_error lifetime_in_seconds
                (RawLifetimeInSeconds a2) v) as E2.
  do 2 destruct (json.store_interface _ _ _). cbn in *. congruence.
Qed.

Lemma store_object_same ms : ∀ a1 a2 err,
  RawLifetimeInSeconds a1 = RawLifetimeInSeconds a2 →
  (store_object a1 ms err).2 = (store_object a2 ms err).2
  ∧ RawLifetimeInSeconds (store_object a1 ms err).1
    = RawLifetimeInSeconds (store_object a2 ms err).1.
Proof.
  induction ms as [| [k v] r IH]; intros a1 a2 err Hraw; [done |].
  cbn [store_object].
  destruct (store_member_same a1 a2 k v Hraw) as [He Hr].
  destruct (store_member a1 k v) as [a1' e1], (store_member a2 k v) as [a2' e2].
  cbn [fst snd] in *. subst e2. by apply IH.
Qed.

Lemma unmarshal_alias_same jc1 jc2 b :
  (unmarshal_alias jc1 b).2 = (unmarshal_alias jc2 b).2
  ∧ RawLifetimeInSeconds (unmarshal_alias jc1 b).1
    = RawLifetimeInSeconds (unmarshal_alias jc2 b).1.
Proof.
  unfold unmarshal_alias, Unmarshal. destruct b; try done.
  by apply store_object_same.
Qed.

(** The first step succeeds exactly when every member is stored without
    error. *)
Lemma store_object_ok_members ms : ∀ alias err,
  (store_object alias ms err).2 = None
  ↔ err = None ∧ ∀ k v a, (k, v) ∈ ms → (store_member a k v).2 = None.
Proof.
  induction ms as [| [k v] r IH]; intros alias err.
  - cbn. split; [| tauto]. intros ->. split; [done |].
    intros k v a Hin. by apply elem_of_nil in Hin.
  - cbn [store_object].
    destruct (store_member alias k v) as [alias' e] eqn:Hs.
    rewrite IH, saveError_None. split.
    + intros [[-> ->] Hr]. split; [done |]. intros k' v' a Hin.
      apply elem_of_cons in Hin as [[= -> ->] | Hin]; [| by apply Hr].
      by rewrite (store_member_error a alias k v), Hs.
    + intros [-> Hall]. split_and!; [done | |].
      * specialize (Hall k v alias (list_elem_of_here _ _)).
        by rewrite Hs in Hall.
      * intros k' v' a Hin. apply Hall. by apply list_elem_of_further.
Qed.

End decoding_facts.

Section decoding_results.

Implicit Types (jc : ClientJWTConfiguration) (alias : clientJWTConfigurationWrapper).
Implicit Types (ms : list (string * json.value)) (err : option json.error).
Local Arguments json.matches : simpl never.
Local Arguments store_member : simpl never.

(** The last member for a field is a member, under a key that selects
    the field. *)
Lemma member_elem name ms (v : json.value) :
  json.member name ms = Some v →
  ∃ k, json.matches name k = true ∧ (k, v) ∈ ms.
Proof.
  induction ms as [| [k w] r IH]; [done |]. cbn [json.member].
  destruct (json.member name r) as [v' |].
  - intros [= ->]. destruct IH as (k0 & Hk & Hin); [done |].
    exists k0. split; [done |]. by apply list_elem_of_further.
  - destruct (json.matches name k) eqn:Hk; [| done]. intros [= ->].
    exists k. split; [done |]. apply list_elem_of_here.
Qed.

(** A member for [lifetime_in_seconds] is stored without error exactly
    when its value is [readable]; any other member, when it is
    [accepts]ed. *)
Lemma store_member_stores alias k v :
  (store_member alias k v).2 = None ↔ stores k v = true.
Proof.
  unfold stores. destruct (json.matches lifetime_in_seconds k) eqn:Hk.
  - destruct (matches_one k) as (_ & _ & _ & Honly).
    destruct (Honly Hk) as (H1 & H2 & H3).
    unfold accepts, store_member, readable. rewrite H1, H2, H3, Hk.
    pose proof (store_interface_error lifetime_in_seconds
                  (RawLifetimeInSeconds alias) v) as He.
    destruct (json.store_interface _ _ _) as [x e]. cbn [snd] in *. subst e.
    cbn [negb orb andb].
    destruct (json.valueInterface lifetime_in_seconds v).2;
      intuition congruence.
  - cbn [negb orb]. rewrite andb_true_r. by apply store_member_accepts.
Qed.

Lemma unmarshal_alias_stores jc ms :
  (unmarshal_alias jc (json.Object ms)).2 = None
  ↔ forallb (λ x, stores x.1 x.2) ms = true.
Proof.
  unfold unmarshal_alias, Unmarshal.
  rewrite store_object_ok_members, forallb_forall. split.
  - intros [_ Hall] [k v] Hin. apply list_elem_of_In in Hin.
    cbn [fst snd]. by apply (store_member_stores
      {| clientJWTConfiguration := jc; RawLifetimeInSeconds := json.nil |}),
      Hall.
  - intros Hall. split; [done |]. intros k v a Hin.
    apply store_member_stores.
    apply list_elem_of_In in Hin. exact (Hall (k, v) Hin).
Qed.

(** [UnmarshalJSON] after a first step without error, by the last member
    for [lifetime_in_seconds]. *)
Lemma UnmarshalJSON_ok jc ms :
  (unmarshal_alias jc (json.Object ms)).2 = None →
  UnmarshalJSON jc (json.Object ms)
  = let jc' := clientJWTConfiguration
                 (unmarshal_alias jc (json.Object ms)).1 in
    match json.member lifetime_in_seconds ms with
    | None | Some json.Null => (jc', None)
    | Some (json.Number m e) =>
        match strconv.ParseFloat m e with
        | inl f => (set_LifetimeInSeconds (Some (int_of_float64 f)) jc', None)
        | inr _ => (jc', None)
        end
    | Some (json.String s) =>
        match strconv.Atoi s with
        | inl n => (set_LifetimeInSeconds (Some n) jc', None)
        | inr _ => (jc', Some unexpectedTypeError)
        end
    | Some _ => (jc', Some unexpectedTypeError)
    end.
Proof.
  intros Hok. rewrite UnmarshalJSON_eq. cbv zeta.
  rewrite Hok, unmarshal_alias_Raw by done.
  destruct (json.member lifetime_in_seconds ms) as [[| x | m e | s | l | kv] |];
    cbn [json.valueInterface fst]; try done.
  - by destruct (strconv.ParseFloat m e).
  - by destruct (json.arrayInterface _ l).
  - by destruct (json.objectInterface _ kv [] None).
Qed.

(** In a first step without error, a number that is the last member for
    [lifetime_in_seconds] was read as a float64. *)
Lemma unmarshal_alias_number jc ms (m e : Z) :
  (unmarshal_alias jc (json.Object ms)).2 = None →
  json.member lifetime_in_seconds ms = Some (json.Number m e) →
  ∃ f, strconv.ParseFloat m e = inl f.
Proof.
  intros Hok Hm. apply unmarshal_alias_stores in Hok.
  destruct (member_elem _ _ _ Hm) as (k & Hk & Hin).
  apply list_elem_of_In in Hin.
  pose proof (proj1 (forallb_forall _ _) Hok _ Hin) as Hst.
  unfold stores, readable in Hst. cbn [fst snd] in Hst. rewrite Hk in Hst.
  apply andb_true_iff in Hst as [_ Hst]. cbn in Hst.
  destruct (strconv.ParseFloat m e) as [f |]; [by exists f | done].
Qed.

End decoding_results.

(** ** Decoding: further properties *)

Section decoding_properties.

Implicit Types (jc : ClientJWTConfiguration) (alias : clientJWTConfigurationWrapper).
Implicit Types (ms : list (string * json.value)) (err : option json.error).
Local Arguments json.matches : simpl never.
Local Arguments store_member : simpl never.

(** X1: after a decoding without error, [LifetimeInSeconds] is decided by
    the last member of the object whose key selects
    [lifetime_in_seconds]: without one, or when it is [null], the receiver
    keeps its value; a number is read as a float64 and converted to
    [int]; a string is read by [Atoi]; no other value lets the decoding
    succeed. *)
Theorem successful_decoding_reads_last_lifetime_member jc ms jc' :
  UnmarshalJSON jc (json.Object ms) = (jc', None) →
  match json.member lifetime_in_seconds ms with
  | None | Some json.Null => LifetimeInSeconds jc' = LifetimeInSeconds jc
  | Some (json.Number m e) =>
      ∃ f, strconv.ParseFloat m e = inl f
           ∧ LifetimeInSeconds jc' = Some (int_of_float64 f)
  | Some (json.String s) =>
      ∃ n, strconv.Atoi s = inl n ∧ LifetimeInSeconds jc' = Some n
  | Some _ => False
  end.
Proof.
  intros Hdec.
  assert (Hok : (unmarshal_alias jc (json.Object ms)).2 = None).
  { rewrite UnmarshalJSON_eq in Hdec. cbv zeta in Hdec.
    by destruct (unmarshal_alias jc (json.Object ms)).2. }
  pose proof (unmarshal_alias_number jc ms) as Hnum.
  pose proof (unmarshal_alias_LifetimeInSeconds jc (json.Object ms)) as Hl.
  rewrite UnmarshalJSON_ok in Hdec by done. cbv zeta in Hdec.
  destruct (json.member lifetime_in_seconds ms) as [[| x | m e | s | l | kv] |];
    try done; try (by injection Hdec as <-).
  - destruct (Hnum m e Hok eq_refl) as [f Hf]. rewrite Hf in Hdec.
    injection Hdec as <-. by exists f.
  - destruct (strconv.Atoi s) as [n |]; [| done].
    injection Hdec as <-. by exists n.
Qed.

Lemma successful_decoding_reads_last_lifetime_member_witness :
  let ms := [(lifetime_in_seconds, json.Bool true);
             ("LIFETIME_IN_SECONDS", json.String "60")] in
  let jc' := set_LifetimeInSeconds (Some 60) zero in
  UnmarshalJSON zero (json.Object ms) = (jc', None)
  ∧ ∃ n, strconv.Atoi "60" = inl n ∧ LifetimeInSeconds jc' = Some n.
Proof.
  assert (H : UnmarshalJSON zero
                (json.Object [(lifetime_in_seconds, json.Bool true);
                              ("LIFETIME_IN_SECONDS", json.String "60")])
              = (set_LifetimeInSeconds (Some 60) zero, None))
    by reflexivity.
  split; [exact H |].
  exact (successful_decoding_reads_last_lifetime_member zero _ _ H).
Defined.

(** X2: a decoding that fails, for whatever reason, leaves
    [LifetimeInSeconds] as the receiver had it. *)
Theorem failed_decoding_keeps_lifetime jc b e :
  (UnmarshalJSON jc b).2 = Some e →
  LifetimeInSeconds (UnmarshalJSON jc b).1 = LifetimeInSeconds jc.
Proof.
  rewrite UnmarshalJSON_eq. cbv zeta.
  pose proof (unmarshal_alias_LifetimeInSeconds jc b) as Hl.
  destruct (unmarshal_alias jc b).2; [done |].
  destruct (RawLifetimeInSeconds _); try done.
  by destruct (strconv.Atoi s).
Qed.

Lemma failed_decoding_keeps_lifetime_witness :
  let jc := set_LifetimeInSeconds (Some 60) zero in
  let b := json.Object [(lifetime_in_seconds, json.Number 3600 0);
                        ("alg", json.Number 5 0)] in
  (UnmarshalJSON jc b).2 = Some (json.UnmarshalTypeError "number" "alg")
  ∧ LifetimeInSeconds (UnmarshalJSON jc b).1 = LifetimeInSeconds jc.
Proof.
  assert (H : (UnmarshalJSON (set_LifetimeInSeconds (Some 60) zero)
                 (json.Object [(lifetime_in_seconds, json.Number 3600 0);
                               ("alg", json.Number 5 0)])).2
              = Some (json.UnmarshalTypeError "number" "alg"))
    by reflexivity.
  split; [exact H |].
  exact (failed_decoding_keeps_lifetime _ _ _ H).
Defined.

(** X3: a JSON text that is not an object never changes the receiver:
    [null] is accepted and ignored, a boolean, a number, a string or an
    array is the type error of [json.Unmarshal]. *)
Theorem decoding_a_non_object_changes_nothing jc b :
  (∀ ms, b ≠ json.Object ms) →
  UnmarshalJSON jc b
  = (jc, match b with
         | json.Null => None
         | _ => Some (json.UnmarshalTypeError (json.kind b) "")
         end).
Proof. intros Hb. destruct b; try done. by destruct (Hb members). Qed.

Lemma decoding_a_non_object_changes_nothing_witness :
  let jc := set_LifetimeInSeconds (Some 60) zero in
  (∀ ms, json.Array [json.Number 1 0] ≠ json.Object ms)
  ∧ UnmarshalJSON jc (json.Array [json.Number 1 0])
    = (jc, Some (json.UnmarshalTypeError "array" "")).
Proof.
  assert (H : ∀ ms, json.Array [json.Number 1 0] ≠ json.Object ms)
    by (intros ms; discriminate).
  split; [exact H |].
  exact (decoding_a_non_object_changes_nothing
           (set_LifetimeInSeconds (Some 60) zero) _ H).
Defined.

Lemma store_object_filter ms : ∀ alias err,
  store_object alias (List.filter (λ x, selects x.1) ms) err
  = store_object alias ms err.
Proof.
  induction ms as [| [k v] r IH]; intros alias err; [done |].
  cbn [List.filter store_object fst].
  destruct (selects k) eqn:Hsel.
  - cbn [store_object]. destruct (store_member alias k v). apply IH.
  - unfold selects in Hsel.
    apply orb_false_iff in Hsel as [Hsel H4].
    apply orb_false_iff in Hsel as [Hsel H3].
    apply orb_false_iff in Hsel as [H1 H2].
    unfold store_member. rewrite H1, H2, H3, H4, saveError_None_r. apply IH.
Qed.

(** X4: members whose key selects none of the four wire names are
    ignored: decoding an object and decoding it without those members
    give the same record and the same error; an object that has only such
    members (the empty object among them) is accepted and leaves the
    receiver as it is. *)
Theorem unknown_members_are_ignored jc ms :
  UnmarshalJSON jc (json.Object ms)
  = UnmarshalJSON jc (json.Object (List.filter (λ x, selects x.1) ms))
  ∧ (forallb (λ x, negb (selects x.1)) ms = true →
     UnmarshalJSON jc (json.Object ms) = (jc, None)).
Proof.
  assert (Heq : UnmarshalJSON jc (json.Object ms)
                = UnmarshalJSON jc
                    (json.Object (List.filter (λ x, selects x.1) ms))).
  { unfold UnmarshalJSON, Unmarshal. by rewrite store_object_filter. }
  split; [exact Heq |]. intros Hnone. rewrite Heq.
  assert (List.filter (λ x, selects x.1) ms = []) as ->; [| done].
  clear Heq. induction ms as [| [k v] r IH]; [done |].
  cbn [forallb fst] in Hnone. apply andb_true_iff in Hnone as [Hk Hr].
  cbn [List.filter fst]. apply negb_true_iff in Hk. rewrite Hk. by apply IH.
Qed.

Lemma store_member_fold alias (k k' : string) v :
  json.foldName k = json.foldName k' →
  store_member alias k v = store_member alias k' v.
Proof.
  intros Hf. unfold store_member, json.matches. by rewrite Hf.
Qed.

(** X5: keys are matched to the wire names through their folded form
    only: two objects whose members have, in order, equal values under
    keys of equal folded name (such as keys that differ in the case of
    ASCII letters) decode alike. *)
Theorem keys_are_matched_by_folded_name jc ms ms' :
  Forall2 (λ x y, json.foldName x.1 = json.foldName y.1 ∧ x.2 = y.2) ms ms' →
  UnmarshalJSON jc (json.Object ms) = UnmarshalJSON jc (json.Object ms').
Proof.
  intros Hall. unfold UnmarshalJSON, Unmarshal.
  assert (H : ∀ alias err,
            store_object alias ms err = store_object alias ms' err).
  { induction Hall as [| [k v] [k' v'] r r' [Hk Hv] _ IH]; intros alias err;
      [done |].
    cbn [fst snd] in *. subst v'. cbn [store_object].
    rewrite (store_member_fold alias k k' v Hk).
    destruct (store_member alias k' v). apply IH. }
  by rewrite H.
Qed.

Lemma keys_are_matched_by_folded_name_witness :
  let ms := [("Lifetime_In_Seconds", json.Number 3600 0); ("ALG", json.String "RS256")] in
  let ms' := [("lifetime_in_seconds", json.Number 3600 0); ("alg", json.String "RS256")] in
  Forall2 (λ x y, json.foldName x.1 = json.foldName y.1 ∧ x.2 = y.2) ms ms'
  ∧ UnmarshalJSON zero (json.Object ms) = UnmarshalJSON zero (json.Object ms').
Proof.
  assert (H : Forall2
    (λ x y : string * json.value,
       json.foldName x.1 = json.foldName y.1 ∧ x.2 = y.2)
    [("Lifetime_In_Seconds", json.Number 3600 0); ("ALG", json.String "RS256")]
    [("lifetime_in_seconds", json.Number 3600 0); ("alg", json.String "RS256")]).
  { repeat constructor. }
  split; [exact H |].
  exact (keys_are_matched_by_folded_name zero _ _ H).
Defined.

(** X6: decoding never leaves a value outside Go's [int] in
    [LifetimeInSeconds]: if the receiver's value is an [int], so is the
    value after [UnmarshalJSON], whatever the JSON. *)
Theorem decoded_lifetime_is_an_int jc b (n : Z) :
  (∀ n0, LifetimeInSeconds jc = Some n0 → int_min <= n0 <= int_max) →
  LifetimeInSeconds (UnmarshalJSON jc b).1 = Some n →
  int_min <= n <= int_max.
Proof.
  intros Hjc. rewrite UnmarshalJSON_eq. cbv zeta.
  pose proof (unmarshal_alias_LifetimeInSeconds jc b) as Hl.
  rewrite <- Hl in Hjc.
  destruct (unmarshal_alias jc b).2; [by apply Hjc |].
  destruct (RawLifetimeInSeconds _); try (by apply Hjc).
  - intros [= <-]. apply int_of_float64_int.
  - destruct (strconv.Atoi s) as [v |] eqn:Hs; [| by apply Hjc].
    intros [= <-]. apply Atoi_inl in Hs as (_ & Hr & ->). exact Hr.
Qed.

Lemma decoded_lifetime_is_an_int_witness :
  let b := json.Object [(lifetime_in_seconds, json.Number 1 19)] in
  (∀ n0, LifetimeInSeconds zero = Some n0 → int_min <= n0 <= int_max)
  ∧ LifetimeInSeconds (UnmarshalJSON zero b).1 = Some int_min
  ∧ int_min <= int_min <= int_max.
Proof.
  assert (H0 : ∀ n0, LifetimeInSeconds zero = Some n0 →
                     int_min <= n0 <= int_max) by done.
  assert (H1 : LifetimeInSeconds
                 (UnmarshalJSON zero
                    (json.Object [(lifetime_in_seconds, json.Number 1 19)])).1
               = Some int_min) by (by vm_compute).
  split; [exact H0 |]. split; [exact H1 |].
  exact (decoded_lifetime_is_an_int zero _ int_min H0 H1).
Defined.

(** X7: the string form is read exactly.  When the last member for
    [lifetime_in_seconds] is a string and [json.Unmarshal] reported no
    error, the decoding succeeds exactly when the string is a base-10
    integer (an optional sign, then digits only) whose value is an [int],
    and then [LifetimeInSeconds] is that value; otherwise the error is the
    codec's own. *)
Theorem string_lifetime_is_read_exactly jc ms (s : string) :
  json.member lifetime_in_seconds ms = Some (json.String s) →
  (unmarshal_alias jc (json.Object ms)).2 = None →
  if strconv.base10 s && (int_min <=? strconv.base10_value s)
     && (strconv.base10_value s <=? int_max)
  then (UnmarshalJSON jc (json.Object ms)).2 = None
       ∧ LifetimeInSeconds (UnmarshalJSON jc (json.Object ms)).1
         = Some (strconv.base10_value s)
  else (UnmarshalJSON jc (json.Object ms)).2 = Some unexpectedTypeError.
Proof.
  intros Hm Hok. rewrite UnmarshalJSON_ok by done. rewrite Hm. cbv zeta.
  destruct (strconv.Atoi s) as [n | e] eqn:Hs.
  - apply Atoi_inl in Hs as (-> & [H1 H2] & ->).
    apply Z.leb_le in H1, H2. by rewrite H1, H2.
  - destruct (strconv.base10 s && (int_min <=? strconv.base10_value s)
              && (strconv.base10_value s <=? int_max)) eqn:Hc; [| done].
    apply andb_true_iff in Hc as [Hc H2].
    apply andb_true_iff in Hc as [Hb H1].
    apply Z.leb_le in H1, H2.
    assert (strconv.Atoi s = inl (strconv.base10_value s)) by
      (by apply Atoi_inl).
    congruence.
Qed.

Lemma string_lifetime_is_read_exactly_witness :
  let ms := [("alg", json.String "RS256");
             (lifetime_in_seconds, json.String "-0042")] in
  json.member lifetime_in_seconds ms = Some (json.String "-0042")
  ∧ (unmarshal_alias zero (json.Object ms)).2 = None
  ∧ (UnmarshalJSON zero (json.Object ms)).2 = None
  ∧ LifetimeInSeconds (UnmarshalJSON zero (json.Object ms)).1 = Some (- 42).
Proof.
  assert (H1 : json.member lifetime_in_seconds
                 [("alg", json.String "RS256");
                  (lifetime_in_seconds, json.String "-0042")]
               = Some (json.String "-0042")) by reflexivity.
  assert (H2 : (unmarshal_alias zero
                  (json.Object [("alg", json.String "RS256");
                     (lifetime_in_seconds, json.String "-0042")])).2 = None)
    by reflexivity.
  split; [exact H1 |]. split; [exact H2 |].
  exact (string_lifetime_is_read_exactly zero _ "-0042" H1 H2).
Defined.

(** X8: a number whose value is an integer [N] within [int] that is a
    float64 (every [N] with [|N| <= 2^53] is one), however it is written
    ([3600], [36e2], [3600.0]), decodes to [N]: when it is the last member
    for [lifetime_in_seconds] and [json.Unmarshal] reported no error, the
    decoding succeeds and [LifetimeInSeconds] is [N]. *)
Theorem integral_number_lifetime_is_read_back jc ms (m e N : Z) :
  json.member lifetime_in_seconds ms = Some (json.Number m e) →
  strconv.integral m e N → int_min <= N <= int_max →
  is_float64 (Z.abs N) = true →
  (unmarshal_alias jc (json.Object ms)).2 = None →
  (UnmarshalJSON jc (json.Object ms)).2 = None
  ∧ LifetimeInSeconds (UnmarshalJSON jc (json.Object ms)).1 = Some N.
Proof.
  intros Hm Hint HN Hrep Hok. rewrite UnmarshalJSON_ok by done.
  rewrite Hm. cbv zeta.
  destruct (int_of_ParseFloat_integral m e N Hint HN) as (f & -> & Hiff).
  split; [done |]. cbn [fst LifetimeInSeconds set_LifetimeInSeconds].
  by rewrite (proj2 Hiff Hrep).
Qed.

Lemma integral_number_lifetime_is_read_back_witness :
  let ms := [(lifetime_in_seconds, json.Number 36000 (- 1))] in
  json.member lifetime_in_seconds ms = Some (json.Number 36000 (- 1))
  ∧ strconv.integral 36000 (- 1) 3600 ∧ int_min <= 3600 <= int_max
  ∧ is_float64 (Z.abs 3600) = true
  ∧ (unmarshal_alias zero (json.Object ms)).2 = None
  ∧ (UnmarshalJSON zero (json.Object ms)).2 = None
  ∧ LifetimeInSeconds (UnmarshalJSON zero (json.Object ms)).1 = Some 3600.
Proof.
  assert (H1 : json.member lifetime_in_seconds
                 [(lifetime_in_seconds, json.Number 36000 (- 1))]
               = Some (json.Number 36000 (- 1))) by reflexivity.
  assert (H2 : strconv.integral 36000 (- 1) 3600) by reflexivity.
  assert (H3 : int_min <= 3600 <= int_max) by (by vm_compute).
  assert (H4 : is_float64 (Z.abs 3600) = true) by reflexivity.
  assert (H5 : (unmarshal_alias zero
                  (json.Object
                     [(lifetime_in_seconds, json.Number 36000 (- 1))])).2
               = None) by reflexivity.
  split; [exact H1 |]. split; [exact H2 |]. split; [exact H3 |].
  split; [exact H4 |]. split; [exact H5 |].
  exact (integral_number_lifetime_is_read_back zero _ 36000 (- 1) 3600
           H1 H2 H3 H4 H5).
Defined.

(** X9: the two wire forms are interchangeable.  A number whose value is
    an integer [N] that is a float64 and a string that is a base-10
    integer of value [N] give, in the same place of the same object, the
    same record and the same error, whatever the receiver and the other
    members. *)
Theorem number_and_string_forms_agree jc before after (m e N : Z) (s : string) :
  strconv.integral m e N → int_min <= N <= int_max →
  is_float64 (Z.abs N) = true →
  strconv.base10 s = true → strconv.base10_value s = N →
  UnmarshalJSON jc
    (json.Object (before ++ (lifetime_in_seconds, json.Number m e) :: after))
  = UnmarshalJSON jc
      (json.Object (before ++ (lifetime_in_seconds, json.String s) :: after)).
Proof.
  intros Hint HN Hrep Hb Hv.
  destruct (int_of_ParseFloat_integral m e N Hint HN) as (f & Hf & Hiff).
  apply (UnmarshalJSON_number_or_string jc before after m e N f s Hf).
  - by apply Hiff.
  - apply Atoi_inl. by rewrite Hv.
Qed.

Lemma number_and_string_forms_agree_witness :
  strconv.integral (- 36) 2 (- 3600) ∧ int_min <= - 3600 <= int_max
  ∧ is_float64 (Z.abs (- 3600)) = true
  ∧ strconv.base10 "-3600" = true ∧ strconv.base10_value "-3600" = - 3600
  ∧ UnmarshalJSON zero
      (json.Object ([] ++ [(lifetime_in_seconds, json.Number (- 36) 2)]))
    = UnmarshalJSON zero
        (json.Object ([] ++ [(lifetime_in_seconds, json.String "-3600")])).
Proof.
  assert (H1 : strconv.integral (- 36) 2 (- 3600)) by reflexivity.
  assert (H2 : int_min <= - 3600 <= int_max) by (by vm_compute).
  assert (H3 : is_float64 (Z.abs (- 3600)) = true) by reflexivity.
  assert (H4 : strconv.base10 "-3600" = true) by reflexivity.
  assert (H5 : strconv.base10_value "-3600" = - 3600) by reflexivity.
  split; [exact H1 |]. split; [exact H2 |]. split; [exact H3 |].
  split; [exact H4 |]. split; [exact H5 |].
  exact (number_and_string_forms_agree zero [] [] (- 36) 2 (- 3600) "-3600"
           H1 H2 H3 H4 H5).
Defined.

(** X10: whether a decoding fails, and with which error, depends on the
    JSON alone, not on the receiver. *)
Theorem decoding_error_depends_on_json_only jc1 jc2 b :
  (UnmarshalJSON jc1 b).2 = (UnmarshalJSON jc2 b).2.
Proof.
  rewrite !UnmarshalJSON_eq. cbv zeta.
  destruct (unmarshal_alias_same jc1 jc2 b) as [-> ->].
  destruct (unmarshal_alias jc2 b).2; [done |].
  destruct (RawLifetimeInSeconds _); try done.
  by destruct (strconv.Atoi s).
Qed.

(** X11: the objects [UnmarshalJSON] accepts.  Decoding an object
    succeeds exactly when every member is stored without a type error (a
    boolean or null for [secret_encoded], an object of strings or null for
    [scopes], a string or null for [alg], anything without an overflowing
    number for [lifetime_in_seconds], anything at all under another key)
    and the last member for [lifetime_in_seconds], if there is one, is
    null, a number, or a string that is a base-10 integer within
    [int]. *)
Theorem decoding_succeeds_iff_members_acceptable jc ms :
  (UnmarshalJSON jc (json.Object ms)).2 = None
  ↔ forallb (λ x, stores x.1 x.2) ms = true
    ∧ lifetime_ok (json.member lifetime_in_seconds ms) = true.
Proof.
  rewrite <- (unmarshal_alias_stores jc). split.
  - intros Hdec.
    assert (Hok : (unmarshal_alias jc (json.Object ms)).2 = None).
    { rewrite UnmarshalJSON_eq in Hdec. cbv zeta in Hdec.
      by destruct (unmarshal_alias jc (json.Object ms)).2. }
    split; [done |]. rewrite UnmarshalJSON_ok in Hdec by done.
    cbv zeta in Hdec.
    destruct (json.member lifetime_in_seconds ms)
      as [[| x | m e | s | l | kv] |]; try done.
    cbn [lifetime_ok].
    destruct (strconv.Atoi s) as [n |] eqn:Hs; [| done].
    apply Atoi_inl in Hs as (-> & [H1 H2] & _).
    apply Z.leb_le in H1, H2. by rewrite H1, H2.
  - intros [Hok Hlt]. rewrite UnmarshalJSON_ok by done. cbv zeta.
    destruct (json.member lifetime_in_seconds ms)
      as [[| x | m e | s | l | kv] |]; try done.
    + by destruct (strconv.ParseFloat m e).
    + cbn [lifetime_ok] in Hlt.
      apply andb_true_iff in Hlt as [Hlt H2].
      apply andb_true_iff in Hlt as [Hb H1].
      apply Z.leb_le in H1, H2.
      assert (strconv.Atoi s = inl (strconv.base10_value s)) as ->
        by (by apply Atoi_inl).
      done.
Qed.

End decoding_properties.

(** ** Decoding what was encoded: further properties *)

Section roundtrip_properties.

Implicit Types (jc : ClientJWTConfiguration) (alias : clientJWTConfigurationWrapper).
Implicit Types (ms : list (string * json.value)) (err : option json.error).
Local Arguments json.matches : simpl never.
Local Arguments store_member : simpl never.

(** X12: encoding and decoding gives [LifetimeInSeconds] back exactly
    when it is a float64.  For every [int] [n] below [2^63 - 512] (from
    there on the nearest float64 is [2^63], which is no [int]), decoding
    the encoding of a record whose lifetime is [n] succeeds, whatever the
    receiver, and the lifetime read is [n] if and only if [|n|] has at
    most 53 significant bits. *)
Theorem lifetime_roundtrip_exact_iff_float64 jc jc0 (n : Z) :
  int_min <= n < 2 ^ 63 - 2 ^ 9 →
  LifetimeInSeconds jc = Some n →
  (UnmarshalJSON jc0 (MarshalJSON jc).1).2 = None
  ∧ (LifetimeInSeconds (UnmarshalJSON jc0 (MarshalJSON jc).1).1 = Some n
     ↔ is_float64 (Z.abs n) = true).
Proof.
  intros Hn Hjc.
  assert (Hint : strconv.integral n 0 n).
  { unfold strconv.integral. change (0 <=? 0) with true. cbv iota.
    change (10 ^ 0) with 1. lia. }
  assert (Hn' : int_min <= n <= int_max) by (unfold int_max; lia).
  destruct (int_of_ParseFloat_integral n 0 n Hint Hn') as (f & Hf & Hiff).
  destruct (MarshalJSON jc) as [out e] eqn:Hm.
  assert (e = None) as -> by (unfold MarshalJSON in Hm; congruence).
  destruct (unmarshal_alias_MarshalJSON jc jc0 out Hm) as (ms & -> & Hdec).
  rewrite Hjc in Hdec. destruct (Hdec f Hf) as [Hok Hraw].
  cbn [fst]. rewrite UnmarshalJSON_eq. cbv zeta. rewrite Hok, Hraw.
  split; [done |]. cbn [fst LifetimeInSeconds set_LifetimeInSeconds].
  rewrite <- Hiff. split; [by intros [= ->] | by intros ->].
Qed.

Lemma lifetime_roundtrip_exact_iff_float64_witness :
  let jc := set_LifetimeInSeconds (Some (- (2 ^ 60 + 2 ^ 8))) zero in
  int_min <= - (2 ^ 60 + 2 ^ 8) < 2 ^ 63 - 2 ^ 9
  ∧ LifetimeInSeconds jc = Some (- (2 ^ 60 + 2 ^ 8))
  ∧ (UnmarshalJSON zero (MarshalJSON jc).1).2 = None
  ∧ (LifetimeInSeconds (UnmarshalJSON zero (MarshalJSON jc).1).1
     = Some (- (2 ^ 60 + 2 ^ 8))
     ↔ is_float64 (Z.abs (- (2 ^ 60 + 2 ^ 8))) = true).
Proof.
  assert (H1 : int_min <= - (2 ^ 60 + 2 ^ 8) < 2 ^ 63 - 2 ^ 9)
    by (by vm_compute).
  split; [exact H1 |]. split; [reflexivity |].
  exact (lifetime_roundtrip_exact_iff_float64
           (set_LifetimeInSeconds (Some (- (2 ^ 60 + 2 ^ 8))) zero) zero
           (- (2 ^ 60 + 2 ^ 8)) H1 eq_refl).
Defined.

(** *** The whole record *)

Lemma get_last_None (l : list (string * json.value)) (k : string) :
  k ∉ l.*1 → json.get_last k l = None.
Proof.
  induction l as [| [k' v'] r IH]; [done |]. cbn [json.get_last fmap list_fmap fst].
  rewrite not_elem_of_cons. intros [Hne Hr]. rewrite IH by done.
  by destruct (decide (k' = k)).
Qed.

Lemma get_last_NoDup (l : list (string * json.value)) (k : string) v :
  NoDup l.*1 → (k, v) ∈ l → json.get_last k l = Some v.
Proof.
  induction l as [| [k' v'] r IH]; intros Hnd Hin.
  - by apply elem_of_nil in Hin.
  - cbn [fmap list_fmap fst] in Hnd. apply NoDup_cons in Hnd as [Hk' Hnd].
    cbn [json.get_last].
    apply elem_of_cons in Hin as [[= -> ->] | Hin].
    + rewrite get_last_None by done. by destruct (decide (k' = k')).
    + by rewrite (IH Hnd Hin).
Qed.

(** The members written for a map: one string member for each entry. *)
Lemma elem_of_Marshal_map (m : gmap string string) (k : string) v :
  (k, v) ∈ json.sort_members (prod_map id json.String <$> map_to_list m)
  ↔ ∃ s, v = json.String s ∧ m !! k = Some s.
Proof.
  unfold json.sort_members.
  rewrite merge_sort_Permutation, list_elem_of_fmap. split.
  - intros ([k' s] & [= -> ->] & Hks). exists s. split; [done |].
    by apply elem_of_map_to_list.
  - intros (s & -> & Hks). exists (k, s). split; [done |].
    by apply elem_of_map_to_list.
Qed.

Lemma NoDup_Marshal_map (m : gmap string string) :
  NoDup (json.sort_members (prod_map id json.String <$> map_to_list m)).*1.
Proof.
  unfold json.sort_members. rewrite merge_sort_Permutation.
  assert ((prod_map id json.String <$> map_to_list m).*1
          = (map_to_list m).*1) as ->.
  { induction (map_to_list m) as [| [k s] r IH]; [done |].
    cbn. by f_equal. }
  apply NoDup_fst_map_to_list.
Qed.

(** Storing the members written for a map into an empty map gives the
    map back. *)
Lemma store_members_Marshal_map (m : gmap string string) :
  json.store_members "scopes"
    (json.sort_members (prod_map id json.String <$> map_to_list m)) ∅ None
  = (m, None).
Proof.
  set (l := json.sort_members (prod_map id json.String <$> map_to_list m)).
  destruct (json.store_members "scopes" l ∅ None) as [m' e] eqn:Hs.
  f_equal.
  - apply map_eq. intros k.
    pose proof (store_members_lookup "scopes" l k ∅ None) as Hl.
    rewrite Hs in Hl. cbn [fst] in Hl. rewrite Hl.
    destruct (m !! k) as [s |] eqn:Hk.
    + rewrite (get_last_NoDup l k (json.String s));
        [done | apply NoDup_Marshal_map |].
      apply elem_of_Marshal_map. by exists s.
    + rewrite get_last_None; [by rewrite lookup_empty |].
      intros Hk'. apply list_elem_of_fmap in Hk' as ([k' v] & -> & Hkv).
      apply elem_of_Marshal_map in Hkv as (s & _ & Hks). cbn in Hk.
      congruence.
  - pose proof (store_members_ok "scopes" l ∅ None) as Hok.
    rewrite Hs in Hok. apply Hok. split; [done |]. apply Marshal_map_strings.
Qed.

(** Storing under the exact wire names. *)
Lemma store_member_secret_encoded alias v :
  store_member alias "secret_encoded" v
  = (let '(x, e) := json.store_bool_ptr "secret_encoded"
                      (SecretEncoded (clientJWTConfiguration alias)) v in
     ({| clientJWTConfiguration :=
           set_SecretEncoded x (clientJWTConfiguration alias);
         RawLifetimeInSeconds := RawLifetimeInSeconds alias |}, e)).
Proof.
  destruct (store_member_cases alias "secret_encoded" v)
    as [[_ ->] | [[H1 _] | [[H1 _] | [[H1 _] | (H1 & _)]]]];
    try (by vm_compute in H1). done.
Qed.

Lemma store_member_scopes alias v :
  store_member alias "scopes" v
  = (let '(x, e) := json.store_map_ptr "scopes"
                      (Scopes (clientJWTConfiguration alias)) v in
     ({| clientJWTConfiguration :=
           set_Scopes x (clientJWTConfiguration alias);
         RawLifetimeInSeconds := RawLifetimeInSeconds alias |}, e)).
Proof.
  destruct (store_member_cases alias "scopes" v)
    as [[H1 _] | [[_ ->] | [[H1 _] | [[H1 _] | (_ & H1 & _)]]]];
    try (by vm_compute in H1). done.
Qed.

Lemma store_member_alg alias v :
  store_member alias "alg" v
  = (let '(x, e) := json.store_string_ptr "alg"
                      (Algorithm (clientJWTConfiguration alias)) v in
     ({| clientJWTConfiguration :=
           set_Algorithm x (clientJWTConfiguration alias);
         RawLifetimeInSeconds := RawLifetimeInSeconds alias |}, e)).
Proof.
  destruct (store_member_cases alias "alg" v)
    as [[H1 _] | [[H1 _] | [[_ ->] | [[H1 _] | (_ & _ & H1 & _)]]]];
    try (by vm_compute in H1). done.
Qed.

(** The generic members of an encoding, stored into a new record. *)
Lemma store_object_generic_members jc (raw : json.any) :
  Scopes jc ≠ Some json.map_nil →
  store_object {| clientJWTConfiguration := zero;
                  RawLifetimeInSeconds := raw |} (generic_members jc) None
  = ({| clientJWTConfiguration := set_LifetimeInSeconds None jc;
        RawLifetimeInSeconds := raw |}, None).
Proof.
  destruct jc as [lt se sc al]. cbn [Scopes]. intros Hsc.
  unfold generic_members.
  cbn [SecretEncoded Scopes Algorithm].
  destruct se as [b |], sc as [[| m] |], al as [s |]; try done;
    cbn [json.omitempty app store_object];
    repeat first
      [ rewrite store_member_secret_encoded | rewrite store_member_scopes
      | rewrite store_member_alg | rewrite store_members_Marshal_map
      | progress cbn [json.store_bool_ptr json.store_string_ptr
          json.store_map_ptr json.Marshal_map clientJWTConfiguration
          RawLifetimeInSeconds SecretEncoded Scopes Algorithm
          LifetimeInSeconds set_SecretEncoded set_Scopes set_Algorithm
          set_LifetimeInSeconds zero default json.entries json.saveError
          store_object] ];
    done.
Qed.

(** X13: decoding into a new record what [MarshalJSON] wrote gives the
    record back, field for field, provided its strings are valid UTF-8
    (others are not written as they are), its lifetime, if set, is an
    [int] that is a float64, and its [Scopes] is not a pointer to the nil
    map (which is written as [null] and read back as a nil pointer). *)
Theorem roundtrip_restores_record jc :
  valid_utf8 jc = true →
  (∀ n, LifetimeInSeconds jc = Some n →
        int_min <= n <= int_max ∧ is_float64 (Z.abs n) = true) →
  Scopes jc ≠ Some json.map_nil →
  UnmarshalJSON zero (MarshalJSON jc).1 = (jc, None).
Proof.
  intros _ Hlt Hsc. rewrite MarshalJSON_eq. cbn [fst].
  rewrite !app_assoc, <- (app_assoc _ _ (json.omitempty "alg" _ _)).
  fold (generic_members jc).
  unfold UnmarshalJSON, Unmarshal. rewrite store_object_app.
  rewrite store_object_generic_members by done. cbn [fst snd].
  destruct jc as [[n |] se sc al];
    cbn [LifetimeInSeconds json.omitempty store_object] in *.
  - destruct (Hlt n eq_refl) as [Hn Hrep].
    assert (Hint : strconv.integral n 0 n).
    { unfold strconv.integral. change (0 <=? 0) with true. cbv iota.
      change (10 ^ 0) with 1. lia. }
    destruct (int_of_ParseFloat_integral n 0 n Hint Hn) as (f & Hf & Hiff).
    rewrite store_member_lifetime. cbn [json.store_interface].
    rewrite Hf. cbn. by rewrite (proj2 Hiff Hrep).
  - done.
Qed.

Lemma roundtrip_restores_record_witness :
  let jc := {| LifetimeInSeconds := Some 3600; SecretEncoded := Some true;
               Scopes := Some (json.map_of {[ "b" := "y"; "a" := "x" ]});
               Algorithm := Some "RS256" |} in
  valid_utf8 jc = true
  ∧ (∀ n, LifetimeInSeconds jc = Some n →
          int_min <= n <= int_max ∧ is_float64 (Z.abs n) = true)
  ∧ Scopes jc ≠ Some json.map_nil
  ∧ UnmarshalJSON zero (MarshalJSON jc).1 = (jc, None).
Proof.
  intros jc.
  assert (H0 : valid_utf8 jc = true) by (by vm_compute).
  assert (H1 : ∀ n, LifetimeInSeconds jc = Some n →
                    int_min <= n <= int_max ∧ is_float64 (Z.abs n) = true).
  { intros n [= <-]. by vm_compute. }
  assert (H2 : Scopes jc ≠ Some json.map_nil) by done.
  split; [exact H0 |]. split; [exact H1 |]. split; [exact H2 |].
  exact (roundtrip_restores_record jc H0 H1 H2).
Defined.

End roundtrip_properties.

(** ** The generic fields *)

Section generic_field_properties.

Implicit Types (jc : ClientJWTConfiguration) (alias : clientJWTConfigurationWrapper).
Implicit Types (ms : list (string * json.value)) (err : option json.error).
Local Arguments json.matches : simpl never.
Local Arguments store_member : simpl never.

(** The second step of [UnmarshalJSON] writes [LifetimeInSeconds]
    only. *)
Lemma UnmarshalJSON_generic_fields jc b :
  SecretEncoded (UnmarshalJSON jc b).1
  = SecretEncoded (clientJWTConfiguration (unmarshal_alias jc b).1)
  ∧ Scopes (UnmarshalJSON jc b).1
    = Scopes (clientJWTConfiguration (unmarshal_alias jc b).1)
  ∧ Algorithm (UnmarshalJSON jc b).1
    = Algorithm (clientJWTConfiguration (unmarshal_alias jc b).1).
Proof.
  rewrite UnmarshalJSON_eq. cbv zeta.
  destruct (unmarshal_alias jc b).2; [done |].
  destruct (RawLifetimeInSeconds _); try done.
  by destruct (strconv.Atoi s).
Qed.

(** Storing [null] under a key that selects a pointer field sets the
    pointer to nil. *)
Lemma store_member_null alias k :
  (json.matches "secret_encoded" k = true →
   SecretEncoded (clientJWTConfiguration (store_member alias k json.Null).1)
   = None)
  ∧ (json.matches "scopes" k = true →
     Scopes (clientJWTConfiguration (store_member alias k json.Null).1)
     = None)
  ∧ (json.matches "alg" k = true →
     Algorithm (clientJWTConfiguration (store_member alias k json.Null).1)
     = None).
Proof.
  destruct (matches_one k) as (M1 & M2 & M3 & _).
  unfold store_member. split_and!; intros Hk.
  - by rewrite Hk.
  - destruct (M2 Hk) as (-> & _ & _). by rewrite Hk.
  - destruct (M3 Hk) as (-> & -> & _). by rewrite Hk.
Qed.

(** X14: for each of [secret_encoded], [scopes] and [alg], an object
    without a member for the field leaves the receiver's value as it is,
    and an object whose last member for the field is [null] sets the field
    to nil; this holds whether or not the decoding reports an error. *)
Theorem null_clears_and_absence_keeps jc ms :
  let jc' := (UnmarshalJSON jc (json.Object ms)).1 in
  (json.member "secret_encoded" ms = None →
   SecretEncoded jc' = SecretEncoded jc)
  ∧ (json.member "secret_encoded" ms = Some json.Null →
     SecretEncoded jc' = None)
  ∧ (json.member "scopes" ms = None → Scopes jc' = Scopes jc)
  ∧ (json.member "scopes" ms = Some json.Null → Scopes jc' = None)
  ∧ (json.member "alg" ms = None → Algorithm jc' = Algorithm jc)
  ∧ (json.member "alg" ms = Some json.Null → Algorithm jc' = None).
Proof.
  cbv zeta.
  destruct (UnmarshalJSON_generic_fields jc (json.Object ms)) as (-> & -> & ->).
  unfold unmarshal_alias, Unmarshal.
  set (alias0 := {| clientJWTConfiguration := jc;
                    RawLifetimeInSeconds := json.nil |}).
  split_and!; intros Hm.
  - by rewrite (store_object_untouched "secret_encoded"
                  (λ a, SecretEncoded (clientJWTConfiguration a))
                  frame_SecretEncoded).
  - destruct (store_object_last_store "secret_encoded"
                (λ a, SecretEncoded (clientJWTConfiguration a))
                frame_SecretEncoded ms _ alias0 None Hm)
      as (a0 & k0 & Hk & ->).
    destruct (store_member_null a0 k0) as (Hn & _). by apply Hn.
  - by rewrite (store_object_untouched "scopes"
                  (λ a, Scopes (clientJWTConfiguration a)) frame_Scopes).
  - destruct (store_object_last_store "scopes"
                (λ a, Scopes (clientJWTConfiguration a))
                frame_Scopes ms _ alias0 None Hm)
      as (a0 & k0 & Hk & ->).
    destruct (store_member_null a0 k0) as (_ & Hn & _). by apply Hn.
  - by rewrite (store_object_untouched "alg"
                  (λ a, Algorithm (clientJWTConfiguration a))
                  frame_Algorithm).
  - destruct (store_object_last_store "alg"
                (λ a, Algorithm (clientJWTConfiguration a))
                frame_Algorithm ms _ alias0 None Hm)
      as (a0 & k0 & Hk & ->).
    destruct (store_member_null a0 k0) as (_ & _ & Hn). by apply Hn.
Qed.

(** X15: a [scopes] object is merged into the map the receiver holds.
    When the object's only member for [scopes] is a JSON object, [Scopes]
    afterwards is a map in which every key of that JSON object has the
    value of its last member there (the empty string unless it is a
    string), and every other key has the value it had in the receiver's
    map. *)
Theorem scopes_object_is_merged jc before after (k : string)
    (kv : list (string * json.value)) :
  json.matches "scopes" k = true →
  json.member "scopes" before = None →
  json.member "scopes" after = None →
  ∃ m : gmap string string,
    Scopes (UnmarshalJSON jc
              (json.Object (before ++ (k, json.Object kv) :: after))).1
    = Some (json.map_of m)
    ∧ ∀ key,
        m !! key
        = match json.get_last key kv with
          | Some (json.String s) => Some s
          | Some _ => Some EmptyString
          | None =>
              json.entries (default json.map_nil (Scopes jc)) !! key
          end.
Proof.
  intros Hk Hb Ha.
  destruct (UnmarshalJSON_generic_fields jc
              (json.Object (before ++ (k, json.Object kv) :: after)))
    as (_ & -> & _).
  unfold unmarshal_alias, Unmarshal. rewrite store_object_app.
  set (alias0 := {| clientJWTConfiguration := jc;
                    RawLifetimeInSeconds := json.nil |}).
  assert (Hsc : Scopes (clientJWTConfiguration
                          (store_object alias0 before None).1) = Scopes jc).
  { by rewrite (store_object_untouched "scopes"
                  (λ a, Scopes (clientJWTConfiguration a)) frame_Scopes). }
  destruct (store_object alias0 before None) as [a1 e1]. cbn [fst snd] in *.
  cbn [store_object].
  destruct (store_member a1 k (json.Object kv)) as [a2 e2] eqn:Hs.
  rewrite (store_object_untouched "scopes"
             (λ a, Scopes (clientJWTConfiguration a)) frame_Scopes) by done.
  destruct (matches_one k) as (_ & Honly & _).
  destruct (Honly Hk) as (Hn1 & Hn2 & Hn3).
  unfold store_member in Hs. rewrite Hn1, Hk in Hs.
  cbn [json.store_map_ptr] in Hs. rewrite Hsc in Hs.
  destruct (json.store_members _ _ _ _) as [m e] eqn:Hm.
  injection Hs as <- <-. exists m. split; [done |]. intros key.
  pose proof (store_members_lookup "scopes" kv key
    (json.entries (default json.map_nil (Scopes jc))) None) as Hl.
  by rewrite Hm in Hl.
Qed.

Lemma scopes_object_is_merged_witness :
  let jc := set_Scopes (Some (json.map_of {[ "read" := "old" ]})) zero in
  let kv := [("write", json.String "w")] in
  json.matches "scopes" "Scopes" = true
  ∧ json.member "scopes" [("alg", json.String "RS256")] = None
  ∧ json.member "scopes" [] = None
  ∧ ∃ m : gmap string string,
      Scopes (UnmarshalJSON jc
                (json.Object ([("alg", json.String "RS256")]
                              ++ [("Scopes", json.Object kv)]))).1
      = Some (json.map_of m)
      ∧ ∀ key,
          m !! key
          = match json.get_last key kv with
            | Some (json.String s) => Some s
            | Some _ => Some EmptyString
            | None =>
                json.entries (default json.map_nil (Scopes jc)) !! key
            end.
Proof.
  intros jc kv.
  assert (H1 : json.matches "scopes" "Scopes" = true) by reflexivity.
  assert (H2 : json.member "scopes" [("alg", json.String "RS256")] = None)
    by reflexivity.
  assert (H3 : json.member "scopes" [] = None) by reflexivity.
  split; [exact H1 |]. split; [exact H2 |]. split; [exact H3 |].
  exact (scopes_object_is_merged jc [("alg", json.String "RS256")] []
           "Scopes" kv H1 H2 H3).
Defined.

End generic_field_properties.

(** ** Encoding *)

Section encoding_properties.

Implicit Types (jc : ClientJWTConfiguration).
Local Arguments json.matches : simpl never.
Local Arguments store_member : simpl never.

(** X16: what [MarshalJSON] writes, [UnmarshalJSON] accepts: decoding the
    encoding of a record never fails, whatever the record (its lifetime
    being an [int]) and whatever the receiver. *)
Theorem encoding_is_always_accepted jc jc0 :
  (∀ n, LifetimeInSeconds jc = Some n → int_min <= n <= int_max) →
  (UnmarshalJSON jc0 (MarshalJSON jc).1).2 = None.
Proof.
  intros Hlt.
  destruct (MarshalJSON jc) as [out e] eqn:Hm.
  assert (e = None) as -> by (unfold MarshalJSON in Hm; congruence).
  destruct (unmarshal_alias_MarshalJSON jc jc0 out Hm) as (ms & -> & Hdec).
  cbn [fst]. rewrite UnmarshalJSON_eq. cbv zeta.
  destruct (LifetimeInSeconds jc) as [n |].
  - assert (Hint : strconv.integral n 0 n).
    { unfold strconv.integral. change (0 <=? 0) with true. cbv iota.
      change (10 ^ 0) with 1. lia. }
    destruct (int_of_ParseFloat_integral n 0 n Hint (Hlt n eq_refl))
      as (f & Hf & _).
    destruct (Hdec f Hf) as [-> ->]. done.
  - destruct Hdec as [-> ->]. done.
Qed.

Lemma encoding_is_always_accepted_witness :
  let jc := {| LifetimeInSeconds := Some int_max; SecretEncoded := None;
               Scopes := Some json.map_nil; Algorithm := Some "HS256" |} in
  (∀ n, LifetimeInSeconds jc = Some n → int_min <= n <= int_max)
  ∧ (UnmarshalJSON zero (MarshalJSON jc).1).2 = None.
Proof.
  intros jc.
  assert (H : ∀ n, LifetimeInSeconds jc = Some n →
                   int_min <= n <= int_max).
  { intros n [= <-]. by vm_compute. }
  split; [exact H |].
  exact (encoding_is_always_accepted jc zero H).
Defined.

(** Reading the encoding by key gives each field. *)
Lemma MarshalJSON_get jc out :
  MarshalJSON jc = (json.Object out, None) →
  json.get "secret_encoded" out = json.Bool <$> SecretEncoded jc
  ∧ json.get "scopes" out = json.Marshal_map <$> Scopes jc
  ∧ json.get "alg" out = json.String <$> Algorithm jc
  ∧ json.get lifetime_in_seconds out
    = (λ n, json.Number n 0) <$> LifetimeInSeconds jc.
Proof.
  rewrite MarshalJSON_eq. intros [= <-].
  destruct (SecretEncoded jc), (Scopes jc), (Algorithm jc),
    (LifetimeInSeconds jc); by repeat split.
Qed.

Lemma Marshal_map_inj (g1 g2 : json.gomap) :
  json.Marshal_map g1 = json.Marshal_map g2 → g1 = g2.
Proof.
  destruct g1 as [| m1], g2 as [| m2]; try done.
  cbn [json.Marshal_map]. intros [= Hl]. f_equal.
  apply map_eq. intros k. apply option_eq. intros s.
  pose proof (elem_of_Marshal_map m1 k (json.String s)) as H1.
  pose proof (elem_of_Marshal_map m2 k (json.String s)) as H2.
  rewrite Hl in H1. split; intros Hk.
  - destruct (proj1 H2) as (s' & [= <-] & Hs); [| done].
    apply H1. by exists s.
  - destruct (proj1 H1) as (s' & [= <-] & Hs); [| done].
    apply H2. by exists s.
Qed.

(** X17: [MarshalJSON] tells records apart: two different records whose
    strings are valid UTF-8 have different encodings (a nil [Scopes]
    pointer, a pointer to the nil map and a pointer to an empty map are
    written differently: no member, [null] and an empty object). *)
Theorem MarshalJSON_tells_records_apart jc1 jc2 :
  valid_utf8 jc1 = true → valid_utf8 jc2 = true →
  jc1 ≠ jc2 → MarshalJSON jc1 ≠ MarshalJSON jc2.
Proof.
  intros _ _ Hne Heq. apply Hne. clear Hne.
  destruct (MarshalJSON jc1) as [out1 e1] eqn:Hm1.
  pose proof Hm1 as Hm1'. rewrite MarshalJSON_eq in Hm1'.
  injection Hm1' as <- <-.
  destruct (MarshalJSON_get jc1 _ Hm1) as (A1 & B1 & C1 & D1).
  rewrite Heq in Hm1. symmetry in Heq.
  destruct (MarshalJSON_get jc2 _ Heq) as (A2 & B2 & C2 & D2).
  rewrite A1 in A2. rewrite B1 in B2. rewrite C1 in C2. rewrite D1 in D2.
  destruct jc1 as [l1 s1 g1 a1], jc2 as [l2 s2 g2 a2]. cbn in *.
  f_equal.
  - destruct l1, l2; cbn in D2; congruence.
  - destruct s1, s2; cbn in A2; congruence.
  - destruct g1 as [x1 |], g2 as [x2 |]; cbn in B2; try done.
    injection B2 as B2. f_equal. symmetry. by apply Marshal_map_inj.
  - destruct a1, a2; cbn in C2; congruence.
Qed.

Lemma MarshalJSON_tells_records_apart_witness :
  let jc1 := set_Scopes (Some json.map_nil) zero in
  let jc2 := set_Scopes (Some (json.map_of ∅)) zero in
  valid_utf8 jc1 = true ∧ valid_utf8 jc2 = true ∧ jc1 ≠ jc2
  ∧ MarshalJSON jc1 ≠ MarshalJSON jc2.
Proof.
  intros jc1 jc2.
  assert (H1 : valid_utf8 jc1 = true) by reflexivity.
  assert (H2 : valid_utf8 jc2 = true) by reflexivity.
  assert (H3 : jc1 ≠ jc2) by discriminate.
  split; [exact H1 |]. split; [exact H2 |]. split; [exact H3 |].
  exact (MarshalJSON_tells_records_apart jc1 jc2 H1 H2 H3).
Defined.

End encoding_properties.

(** ** UpdateCredential: further properties *)

Section UpdateCredential_properties.

Import ClientManager.

Context {RequestOption error : Type}.
Variable URI : list string → string.

Implicit Types (h : @handler RequestOption error).
Implicit Types (credential : Credential) (opts : list RequestOption).
Implicit Types (times : gmap addr Time).

(** X18: of the caller's credential, only [ExpiresAt] reaches the
    request, and only [PEM] and [ParseExpiryFromCert] reach the result.
    Two calls that differ in the credential passed, but not in its
    [ExpiresAt], issue the same request, leave the same time cells and
    return the same error; when that error is nil, the two credentials
    agree afterwards on every field but [PEM] and [ParseExpiryFromCert],
    which are each caller's own. *)
Theorem UpdateCredential_depends_on_ExpiresAt_only
    h clientID credentialID credential1 credential2 opts times :
  ExpiresAt credential1 = ExpiresAt credential2 →
  let r1 := run h (UpdateCredential URI clientID credentialID credential1
                     opts) times in
  let r2 := run h (UpdateCredential URI clientID credentialID credential2
                     opts) times in
  r1.2 = r2.2 ∧ r1.1.2 = r2.1.2 ∧ r1.1.1.2 = r2.1.1.2
  ∧ (r1.1.1.2 = None →
     ID r1.1.1.1 = ID r2.1.1.1 ∧ Name r1.1.1.1 = Name r2.1.1.1
     ∧ KeyID r1.1.1.1 = KeyID r2.1.1.1
     ∧ CredentialType r1.1.1.1 = CredentialType r2.1.1.1
     ∧ Algorithm r1.1.1.1 = Algorithm r2.1.1.1
     ∧ CreatedAt r1.1.1.1 = CreatedAt r2.1.1.1
     ∧ UpdatedAt r1.1.1.1 = UpdatedAt r2.1.1.1
     ∧ ExpiresAt r1.1.1.1 = ExpiresAt r2.1.1.1
     ∧ PEM r1.1.1.1 = PEM credential1 ∧ PEM r2.1.1.1 = PEM credential2
     ∧ ParseExpiryFromCert r1.1.1.1 = ParseExpiryFromCert credential1
     ∧ ParseExpiryFromCert r2.1.1.1 = ParseExpiryFromCert credential2).
Proof.
  intros He. unfold UpdateCredential. cbn [run]. rewrite He.
  destruct (h _ times) as [[c [e |]] times1]; cbn; by repeat split.
Qed.

(** X19: a success without an answer erases what the caller had.  When
    the request returns nil and leaves the payload as it was sent (the
    response carried nothing to decode), [UpdateCredential] returns nil and
    the caller's [ID], [Name], [KeyID], [CredentialType], [Algorithm],
    [CreatedAt] and [UpdatedAt] are nil afterwards, whatever they were;
    [PEM], [ParseExpiryFromCert] and [ExpiresAt] are kept. *)
Theorem UpdateCredential_unanswered_fields_become_nil
    h clientID credentialID credential opts times r times' :
  head (run h (UpdateCredential URI clientID credentialID credential opts)
          times).2 = Some r →
  h r times = (payload r, None, times') →
  run h (UpdateCredential URI clientID credentialID credential opts) times
  = (({| ID := None; Name := None; KeyID := None; CredentialType := None;
         PEM := PEM credential; Algorithm := None;
         ParseExpiryFromCert := ParseExpiryFromCert credential;
         CreatedAt := None; UpdatedAt := None;
         ExpiresAt := ExpiresAt credential |}, None), times', [r]).
Proof.
  rewrite UpdateCredential_trace. intros [= <-] Hh.
  unfold UpdateCredential. cbn [run]. by rewrite Hh.
Qed.

End UpdateCredential_properties.

Section UpdateCredential_property_examples.

Import ClientManager.

Lemma UpdateCredential_depends_on_ExpiresAt_only_witness :
  let URI := String.concat "/" in
  let h : @handler unit string := λ r times,
    ({| ID := Some "cred_1"; Name := Some "key"; KeyID := Some "kid-1";
        CredentialType := Some "public_key"; PEM := None;
        Algorithm := Some "RS256"; ParseExpiryFromCert := None;
        CreatedAt := Some 10%positive; UpdatedAt := Some 11%positive;
        ExpiresAt := ExpiresAt (payload r) |}, None,
     <[10%positive := 5]> (<[11%positive := 6]> times)) in
  let credential1 :=
    {| ID := None; Name := Some "mine"; KeyID := None;
       CredentialType := None; PEM := Some "-----BEGIN";
       Algorithm := None; ParseExpiryFromCert := Some true;
       CreatedAt := None; UpdatedAt := None;
       ExpiresAt := Some 1%positive |} in
  let credential2 :=
    {| ID := Some "other"; Name := None; KeyID := None;
       CredentialType := None; PEM := None;
       Algorithm := Some "PS256"; ParseExpiryFromCert := None;
       CreatedAt := Some 2%positive; UpdatedAt := None;
       ExpiresAt := Some 1%positive |} in
  let times : gmap addr Time := {[ 1%positive := 7 ]} in
  let r1 := run h (UpdateCredential URI "c1" "cred_1" credential1 [tt])
              times in
  let r2 := run h (UpdateCredential URI "c1" "cred_1" credential2 [tt])
              times in
  ExpiresAt credential1 = ExpiresAt credential2
  ∧ r1.2 = r2.2 ∧ r1.1.2 = r2.1.2 ∧ r1.1.1.2 = r2.1.1.2
  ∧ (r1.1.1.2 = None →
     ID r1.1.1.1 = ID r2.1.1.1 ∧ Name r1.1.1.1 = Name r2.1.1.1
     ∧ KeyID r1.1.1.1 = KeyID r2.1.1.1
     ∧ CredentialType r1.1.1.1 = CredentialType r2.1.1.1
     ∧ Algorithm r1.1.1.1 = Algorithm r2.1.1.1
     ∧ CreatedAt r1.1.1.1 = CreatedAt r2.1.1.1
     ∧ UpdatedAt r1.1.1.1 = UpdatedAt r2.1.1.1
     ∧ ExpiresAt r1.1.1.1 = ExpiresAt r2.1.1.1
     ∧ PEM r1.1.1.1 = PEM credential1 ∧ PEM r2.1.1.1 = PEM credential2
     ∧ ParseExpiryFromCert r1.1.1.1 = ParseExpiryFromCert credential1
     ∧ ParseExpiryFromCert r2.1.1.1 = ParseExpiryFromCert credential2).
Proof.
  intros URI h credential1 credential2 times.
  split; [reflexivity |].
  apply (UpdateCredential_depends_on_ExpiresAt_only URI h "c1" "cred_1"
           credential1 credential2 [tt] times).
  reflexivity.
Defined.

Lemma UpdateCredential_unanswered_fields_become_nil_witness :
  let URI := String.concat "/" in
  let h : @handler unit string := λ r times, (payload r, None, times) in
  let credential :=
    {| ID := Some "cred_1"; Name := Some "key"; KeyID := Some "kid-1";
       CredentialType := Some "public_key"; PEM := Some "-----BEGIN";
       Algorithm := Some "RS256"; ParseExpiryFromCert := Some true;
       CreatedAt := Some 2%positive; UpdatedAt := Some 3%positive;
       ExpiresAt := Some 1%positive |} in
  let times : gmap addr Time := {[ 1%positive := 7 ]} in
  let r :=
    {| method := "PATCH";
       uri := URI ["clients"; "c1"; "credentials"; "cred_1"];
       payload :=
         {| ID := None; Name := None; KeyID := None;
            CredentialType := None; PEM := None; Algorithm := None;
            ParseExpiryFromCert := None; CreatedAt := None;
            UpdatedAt := None; ExpiresAt := Some 1%positive |};
       options := [tt] |} in
  head (run h (UpdateCredential URI "c1" "cred_1" credential [tt])
          times).2 = Some r
  ∧ h r times = (payload r, None, times)
  ∧ run h (UpdateCredential URI "c1" "cred_1" credential [tt]) times
    = (({| ID := None; Name := None; KeyID := None; CredentialType := None;
           PEM := Some "-----BEGIN"; Algorithm := None;
           ParseExpiryFromCert := Some true;
           CreatedAt := None; UpdatedAt := None;
           ExpiresAt := Some 1%positive |}, None), times, [r]).
Proof.
  intros URI h credential times r.
  split; [reflexivity |]. split; [reflexivity |].
  apply (UpdateCredential_unanswered_fields_become_nil URI h "c1" "cred_1"
           credential [tt] times r times); reflexivity.
Defined.

End UpdateCredential_property_examples.
